(** * react-slots: the slot classifier [getSlots] and its companions

    A shallow embedding of [src/react-slots.tsx]: the values that reach
    [getSlots] (React children), the schema ([SlotDictionary]), the
    [WeakMap] from constructors to slot names, the [filter] / [flatMap] /
    [reduce] pipeline, [resolveChildSlot] and the static properties that
    [withSlots] attaches.  JavaScript exceptions are modelled by a small
    error monad; objects used as dictionaries are finite maps of their own
    properties. *)

From stdpp Require Import gmap strings list fin_maps.

(** ** JavaScript values *)

(** Identity of a heap object (a function, a class or a plain object):
    what [===] and [WeakMap] compare. *)
Abbreviation Ref := nat (only parsing).

(** The [type] field of a value. *)
Inductive ElemType :=
| TyHost (tag : string)      (* 'div', 'span', ...: typeof type === 'string' *)
| TySymbol (key : string)    (* Symbol.for(key) *)
| TyRef (r : Ref)            (* a component constructor, or any other object *)
| TyUndefined.               (* the value has no [type] property *)

Global Instance ElemType_eq_dec : EqDecision ElemType.
Proof. solve_decision. Defined.

(** [const ReactFragmentSymbol = Symbol.for('react.fragment')] *)
Definition ReactFragmentSymbol : ElemType := TySymbol "react.fragment".

(** A [React.ReactNode]: primitives, arrays and elements.  [JElem id type
    children] is an element object; [id] tells two elements of the same type
    apart, [children] is [props.children] ([JUndefined] when absent). *)
#[warnings="-register-all"] Inductive Node :=
| JNull
| JUndefined
| JBool (b : bool)
| JNum (z : Z)
| JStr (s : string)
| JArr (items : list Node)
| JElem (id : nat) (type : ElemType) (children : Node).

(** ** Exceptions *)

Inductive Exn := TypeError.

Inductive Result (A : Type) :=
| OK (a : A)
| Throw (e : Exn).
Arguments OK {A} a.
Arguments Throw {A} e.

(** Sequencing: an exception skips what follows.  With this instance
    [x ← r; k] is stdpp's notation for [r ≫= λ x, k]. *)
Global Instance Result_bind : MBind Result := λ A B k r,
  match r with
  | OK a => k a
  | Throw e => Throw e
  end.

(** ** Reading a value *)

(** JavaScript truthiness, the predicate of [.filter((c) => c)]. *)
Definition truthy (v : Node) : bool :=
  match v with
  | JNull | JUndefined => false
  | JBool b => b
  | JNum z => negb (z =? 0)%Z
  | JStr s => match s with EmptyString => false | String _ _ => true end
  | JArr _ | JElem _ _ _ => true
  end.

Definition nullish (v : Node) : bool :=
  match v with
  | JNull | JUndefined => true
  | _ => false
  end.

(** The value of [v.type] when reading it does not throw. *)
Definition node_type (v : Node) : ElemType :=
  match v with
  | JElem _ ty _ => ty
  | _ => TyUndefined
  end.

(** [v.type]: a property read on [null] or [undefined] throws. *)
Definition type_of (v : Node) : Result ElemType :=
  if nullish v then Throw TypeError else OK (node_type v).

(** [e.props?.children] *)
Definition props_children (e : Node) : Node :=
  match e with
  | JElem _ _ c => c
  | _ => JUndefined
  end.

(** [v ?? d] *)
Definition nullish_or (v d : Node) : Node :=
  if nullish v then d else v.

(** ** The schema *)

(** The three shapes of a [SlotDictionary] value:
    a constructor (single slot), a one-element tuple (repeatable slot), and
    an object mapping labels to constructors (namespaced slot).  The object
    has an identity [o] of its own. *)
Inductive SlotDef :=
| Component (c : Ref)
| Tuple (c : Ref)
| Mapping (o : Ref) (members : list (string * Ref)).

(** The schema's entries in [for ... in] order.  A JavaScript object holds a
    key once: see [schema_wf]. *)
Abbreviation SlotDictionary := (list (string * SlotDef)) (only parsing).

Definition schema_wf (schema : SlotDictionary) : Prop := NoDup schema.*1.

(** [schema[key]] *)
Fixpoint schema_get (schema : SlotDictionary) (key : string) : option SlotDef :=
  match schema with
  | [] => None
  | (k, d) :: rest => if decide (k = key) then Some d else schema_get rest key
  end.

(** [Array.isArray(schema[key])] *)
Definition allowMultiple (schema : SlotDictionary) (key : string) : bool :=
  match schema_get schema key with
  | Some (Tuple _) => true
  | _ => false
  end.

(** The key under which the loop of [getSlots] registers an entry:
    [schema[slot][0]] for a tuple, [schema[slot]] itself otherwise. *)
Definition registered_identity (d : SlotDef) : Ref :=
  match d with
  | Component c => c
  | Tuple c => c
  | Mapping o _ => o
  end.

(** ** getSlots *)

(** The returned object [{ slots, children }].  [slots] is a finite map of
    the object's own properties; slot names are ordinary property names. *)
Record SlotResult := mkResult {
  slots : gmap string Node;
  children : list Node
}.

(** [children] to [_children]. *)
Definition normalize (kids : Node) : list Node :=
  if negb (truthy kids) then []
  else match kids with
       | JArr items => items
       | _ => [kids]
       end.

(** One round of the [for (const slot in schema)] loop, on the pair
    ([constructorMap], [sortedSlots]). *)
Definition register (st : gmap Ref string * gmap string Node)
    (entry : string * SlotDef) : gmap Ref string * gmap string Node :=
  let slot := entry.1 in
  match entry.2 with
  | Tuple c =>
      (* constructorMap.set(schema[slot][0], slot); sortedSlots[slot] = [] *)
      (<[c := slot]> st.1, <[slot := JArr []]> st.2)
  | Component c =>
      (* constructorMap.set(schema[slot], slot) *)
      (<[c := slot]> st.1, st.2)
  | Mapping o _ =>
      (* constructorMap.set(schema[slot], slot): the key is the object *)
      (<[o := slot]> st.1, st.2)
  end.

Definition registration (schema : SlotDictionary)
    : gmap Ref string * gmap string Node :=
  fold_left register schema (∅, ∅).

Definition constructorMap (schema : SlotDictionary) : gmap Ref string :=
  (registration schema).1.

Definition sortedSlots (schema : SlotDictionary) : gmap string Node :=
  (registration schema).2.

(** The callback of [flatMap]:
    [e.type === ReactFragmentSymbol ? (e.props?.children ?? []) : e] *)
Definition unwrap_value (e : Node) : Node :=
  if decide (node_type e = ReactFragmentSymbol)
  then nullish_or (props_children e) (JArr [])
  else e.

Definition unwrap (e : Node) : Result Node :=
  ty ← type_of e;
  OK (if decide (ty = ReactFragmentSymbol)
      then nullish_or (props_children e) (JArr [])
      else e).

(** What [flatMap] puts in its result for one callback value: the items of an
    array, or the value itself. *)
Definition splice (v : Node) : list Node :=
  match v with
  | JArr items => items
  | _ => [v]
  end.

Fixpoint flatMap (f : Node → Result Node) (l : list Node) : Result (list Node) :=
  match l with
  | [] => OK []
  | e :: rest =>
      v ← f e;
      vs ← flatMap f rest;
      OK (splice v ++ vs)
  end.

(** [typeof childType !== 'string' && constructorMap.has(childType)], and
    [constructorMap.get(childType)] when it holds. *)
Definition lookup_type (cm : gmap Ref string) (childType : ElemType)
    : option string :=
  match childType with
  | TyRef r => cm !! r
  | _ => None
  end.

(** The callback of [reduce]. *)
Definition reducer (schema : SlotDictionary) (cm : gmap Ref string)
    (p : SlotResult) (cv : Node) : Result SlotResult :=
  childType ← type_of cv;
  match lookup_type cm childType with
  | Some key =>
      if negb (allowMultiple schema key) then
        (* Only one instance of element. Insert *)
        OK (mkResult (<[key := cv]> (slots p)) (children p))
      else
        match slots p !! key with
        | None =>
            (* Multiple allowed - first encounter *)
            OK (mkResult (<[key := JArr [cv]]> (slots p)) (children p))
        | Some (JArr l) =>
            (* Multiple allowed - stack 'em *)
            OK (mkResult (<[key := JArr (l ++ [cv])]> (slots p)) (children p))
        | Some old =>
            (* Multiple allowed - encounter second instance of element *)
            OK (mkResult (<[key := JArr [old; cv]]> (slots p)) (children p))
        end
  | None => OK (mkResult (slots p) (children p ++ [cv]))
  end.

Fixpoint reduce (f : SlotResult → Node → Result SlotResult)
    (l : list Node) (p : SlotResult) : Result SlotResult :=
  match l with
  | [] => OK p
  | cv :: rest => p' ← f p cv; reduce f rest p'
  end.

Definition getSlots (kids : Node) (schema : SlotDictionary) : Result SlotResult :=
  let _children := normalize kids in
  flat ← flatMap unwrap (filter (λ c, truthy c) _children);
  reduce (reducer schema (constructorMap schema)) flat
         (mkResult (sortedSlots schema) []).

(** ** resolveChildSlot and withSlots *)

(** [resolveChildSlot(child)]: the result is a constructor, written
    [Component c], or [child] itself. *)
Definition resolveChildSlot (child : SlotDef) : SlotDef :=
  match child with
  | Tuple c => Component c
  | Mapping o members =>
      if decide (length members = 1) then
        match members with
        | (_, c) :: _ => Component c
        | [] => child
        end
      else child
  | Component c => child
  end.

(** What [SlotProvider] computes from its [children] prop. *)
Definition SlotProvider (schema : SlotDictionary) (props_kids : Node)
    : Result SlotResult :=
  getSlots props_kids schema.

(** ** The vocabulary of the properties *)

(** The sequence that [reduce] walks: the truthy members of the normalised
    input, with each top-level fragment replaced by its children. *)
Definition flatten_items (l : list Node) : list Node :=
  filter (λ c, truthy c) l ≫= (λ e, splice (unwrap_value e)).

Definition flattened (kids : Node) : list Node :=
  flatten_items (normalize kids).

(** The slot name that the identity lookup gives a node, if any. *)
Definition slot_of (cm : gmap Ref string) (n : Node) : option string :=
  lookup_type cm (node_type n).

(** The size of a slot value: the length of a sequence, 1 for a single node. *)
Definition slot_size (v : Node) : nat :=
  match v with
  | JArr l => length l
  | _ => 1
  end.

Definition slots_size (m : gmap string Node) : nat :=
  map_fold (λ _ v acc, slot_size v + acc) 0 m.

(** [cv] is matched to a non-repeatable slot that an earlier node of [seen]
    was matched to: the assignment [p.slots[key] = cv] replaces that node. *)
Definition overwrites_at (schema : SlotDictionary) (seen : list Node)
    (cv : Node) : bool :=
  match slot_of (constructorMap schema) cv with
  | Some key =>
      negb (allowMultiple schema key)
      && bool_decide (Exists (λ n, slot_of (constructorMap schema) n = Some key) seen)
  | None => false
  end.

Fixpoint overwrites (schema : SlotDictionary) (seen fl : list Node) : nat :=
  match fl with
  | [] => 0
  | cv :: rest =>
      (if overwrites_at schema seen cv then 1 else 0)
      + overwrites schema (seen ++ [cv]) rest
  end.

(** The number of nodes of [fl] that a later node replaced in its slot. *)
Definition displaced (schema : SlotDictionary) (fl : list Node) : nat :=
  overwrites schema [] fl.

(** ** The loop invariant of [reduce] *)

(** The state of the accumulator after the nodes [seen]. *)
Record Inv (schema : SlotDictionary) (seen : list Node) (p : SlotResult)
    : Prop := {
  inv_children :
    children p = filter (λ n, slot_of (constructorMap schema) n = None) seen;
  inv_multiple : ∀ key,
    allowMultiple schema key = true →
    slots p !! key = Some (JArr (filter (λ n, slot_of (constructorMap schema) n = Some key) seen));
  inv_single : ∀ key,
    allowMultiple schema key = false →
    slots p !! key
    = match last (filter (λ n, slot_of (constructorMap schema) n = Some key) seen) with
      | Some n => Some n
      | None => sortedSlots schema !! key
      end
}.

(** The counting invariant: nothing is lost but what [overwrites] counts. *)
Definition Count (schema : SlotDictionary) (seen : list Node)
    (p : SlotResult) : Prop :=
  length (children p) + slots_size (slots p) + overwrites schema [] seen
  = length seen.

(** ** The specification's wording of three properties *)

(** The property as the specification words it: a node whose type is the
    component nested in a namespaced entry leaves [children], and the key of
    the entry is not in [slots]. *)
Definition namespaced_removed (kids : Node) (schema : SlotDictionary) : Prop :=
  ∀ key o label c r,
    (key, Mapping o [(label, c)]) ∈ schema →
    getSlots kids schema = OK r →
    (∀ n, n ∈ flattened kids → node_type n = TyRef c → n ∉ children r)
    ∧ slots r !! key = None.

(** The property as the specification words it: a schema with a mapping of
    more than one key makes the classification raise. *)
Definition multi_key_rejected (kids : Node) (schema : SlotDictionary) : Prop :=
  (∃ key o members, (key, Mapping o members) ∈ schema ∧ 1 < length members) →
  ∃ e, getSlots kids schema = Throw e.

(** The components nested in the mappings of a schema. *)
Definition nested_identities (schema : SlotDictionary) : list Ref :=
  schema ≫= (λ e, match e.2 with
                   | Mapping _ members => members.*2
                   | _ => []
                   end).

(** A node whose type is a component nested in a namespaced entry. *)
Definition namespaced_match (schema : SlotDictionary) (n : Node) : bool :=
  match node_type n with
  | TyRef c => bool_decide (c ∈ nested_identities schema)
  | _ => false
  end.

(** The property as the specification words it: leftovers, slot sizes and
    namespaced matches add up to the walked nodes. *)
Definition partition_total (kids : Node) (schema : SlotDictionary) : Prop :=
  ∀ r, getSlots kids schema = OK r →
    length (children r) + slots_size (slots r)
    + length (filter (λ n, namespaced_match schema n) (flattened kids))
    = length (flattened kids).

(** ** The wrapped component *)

(** A value held by an own property of a function object. *)
Inductive StaticValue :=
| SDef (d : SlotDef)       (* a value taken from the schema *)
| SNumber (n : nat)        (* the value of [length] *)
| SString (s : string)     (* the value of [name] *)
| SObject.                 (* the [prototype] object *)

(** A function object: its own properties and its prototype, [None] for
    [Function.prototype]. *)
Record FunctionObject := mkFunction {
  own_props : gmap string StaticValue;
  proto : option SlotDef
}.

(** A function declared in a module (strict code): it owns [length] and
    [name], which are not writable, and a writable [prototype]. *)
Definition function_object (name : string) (arity : nat) : FunctionObject :=
  mkFunction {[ "length" := SNumber arity; "name" := SString name;
                "prototype" := SObject ]} None.

(** [Object.entries(schema)]: the own entries of the schema, in the order
    in which [for ... in] lists them.  [own key] tells whether [key] is an
    own property of the schema; every key of an object literal is. *)
Definition Object_entries (own : string → bool) (schema : SlotDictionary)
    : list (string * SlotDef) :=
  filter (λ kv, own kv.1) schema.

(** The constant [slots] of [withSlots]:
    [Object.fromEntries(Object.entries(schema).map(([key, val]) =>
    [key, resolveChildSlot(val)]))], as the list of its properties.  The keys
    of the entries of an object are distinct, so the object has one property
    for each entry, in that order. *)
Definition withSlots_slots (own : string → bool) (schema : SlotDictionary)
    : list (string * SlotDef) :=
  (λ kv, (kv.1, resolveChildSlot kv.2)) <$> Object_entries own schema.

(** One assignment [target[key] = value] of [Object.assign], whose target is
    a function of strict code and whose value is an object:
    - [name] and [length] are own properties that are not writable;
    - [__proto__] runs the setter of [Object.prototype], which replaces the
      prototype and creates no property;
    - [arguments] and [caller] reach the throwing accessors of
      [Function.prototype], unless the prototype has been replaced by a
      plain object;
    - any other key becomes (or stays) an own property with that value.
    A failed assignment throws. *)
Definition assign_property (target : FunctionObject) (kv : string * SlotDef)
    : Result FunctionObject :=
  if decide (kv.1 = "name" ∨ kv.1 = "length") then Throw TypeError
  else if decide (kv.1 = "__proto__") then
    OK (mkFunction (own_props target) (Some kv.2))
  else if decide (kv.1 = "arguments" ∨ kv.1 = "caller") then
    match proto target with
    | Some (Mapping _ _) =>
        OK (mkFunction (<[kv.1 := SDef kv.2]> (own_props target)) (proto target))
    | _ => Throw TypeError
    end
  else OK (mkFunction (<[kv.1 := SDef kv.2]> (own_props target)) (proto target)).

(** [Object.assign(target, source)], [source] given by its properties. *)
Fixpoint Object_assign (target : FunctionObject)
    (source : list (string * SlotDef)) : Result FunctionObject :=
  match source with
  | [] => OK target
  | kv :: rest => t ← assign_property target kv; Object_assign t rest
  end.

(** What [withSlots(Parent, schema)] returns, as far as the schema decides
    it: the classification that [SlotProvider] hands to [Parent] for a given
    [children] prop, and the function object [SlotProvider] after
    [Object.assign(SlotProvider, slots)]. *)
Record Slotted := mkSlotted {
  provider : Node → Result SlotResult;
  fn : FunctionObject
}.

Definition withSlots (own : string → bool) (schema : SlotDictionary)
    : Result Slotted :=
  f ← Object_assign (function_object "SlotProvider" 1)
                    (withSlots_slots own schema);
  OK (mkSlotted (SlotProvider schema) f).

(** The own properties of the wrapped component. *)
Definition static_props (w : Slotted) : gmap string StaticValue :=
  own_props (fn w).

(** [SlottedComponent(schema)(Parent)] is [withSlots(Parent, schema)]. *)
Definition SlottedComponent (own : string → bool) (schema : SlotDictionary)
    : Result Slotted :=
  withSlots own schema.

(** The keys that cannot be assigned on a function whose prototype is
    [Function.prototype]. *)
Definition not_assignable (key : string) : bool :=
  bool_decide (key ∈ ["name"; "length"; "arguments"; "caller"]).

(** ** More vocabulary *)

(** A node that the pipeline walks as it is: truthy, not a fragment, not an
    array. *)
Definition plain (e : Node) : bool :=
  truthy e
  && negb (bool_decide (node_type e = ReactFragmentSymbol))
  && match e with JArr _ => false | _ => true end.

(** No two entries register the same identity. *)
Definition distinct_identities (schema : SlotDictionary) : Prop :=
  NoDup ((λ e, registered_identity e.2) <$> schema).

(** ** Fixtures of the repository's tests *)

Module Tests.

Definition GenericDiv : Ref := 10.
Definition SLOT_SCHEMA : list (string * SlotDef) := [("GenericDiv", Tuple GenericDiv)].
Definition generic (id : nat) : Node := JElem id (TyRef GenericDiv) JUndefined.
Definition div (id : nat) : Node := JElem id (TyHost "div") JUndefined.
Definition Fragment (id : nat) (c : Node) : Node := JElem id ReactFragmentSymbol c.

End Tests.

(** * Properties *)

(** ** The repository's tests, on the model *)

Import Tests.

Example handles_undefined_children :
  getSlots JUndefined SLOT_SCHEMA
  = OK (mkResult {["GenericDiv" := JArr []]} []).
Proof. vm_compute. reflexivity. Qed.

Example handles_single_child :
  children <$> (match getSlots (generic 1) [] with OK r => Some r | _ => None end)
  = Some [generic 1].
Proof. vm_compute. reflexivity. Qed.

Example handles_multiples_of_slot :
  getSlots (JArr [generic 1; generic 2; generic 3; div 4]) SLOT_SCHEMA
  = OK (mkResult {["GenericDiv" := JArr [generic 1; generic 2; generic 3]]}
                 [div 4]).
Proof. vm_compute. reflexivity. Qed.

Example handles_namespaced_slot :
  getSlots (generic 1) [("Namespaced", Mapping 20 [("GenericDiv", GenericDiv)])]
  = OK (mkResult ∅ [generic 1]).
Proof. vm_compute. reflexivity. Qed.

Example flattens_fragments :
  getSlots (JArr [generic 1; generic 2; generic 3; div 4;
                  Fragment 5 (JArr [generic 6; generic 7; generic 8])])
           SLOT_SCHEMA
  = OK (mkResult {["GenericDiv" := JArr [generic 1; generic 2; generic 3;
                                          generic 6; generic 7; generic 8]]}
                 [div 4]).
Proof. vm_compute. reflexivity. Qed.

Example handles_falsy_children :
  getSlots (JArr [JNull; JBool false; JUndefined; generic 1]) SLOT_SCHEMA
  = OK (mkResult {["GenericDiv" := JArr [generic 1]]} []).
Proof. vm_compute. reflexivity. Qed.

Example does_not_flatten_nested_fragments :
  getSlots (JArr [Fragment 1 (Fragment 0 (generic 2))]) SLOT_SCHEMA
  = OK (mkResult {["GenericDiv" := JArr []]} [Fragment 0 (generic 2)]).
Proof. vm_compute. reflexivity. Qed.

(** ** Filtering and flattening never throw *)

Lemma truthy_not_nullish v : truthy v → nullish v = false.
Proof. by destruct v. Qed.

Lemma type_of_ok v : nullish v = false → type_of v = OK (node_type v).
Proof. unfold type_of. by intros ->. Qed.

Lemma type_of_throw v : nullish v = true → type_of v = Throw TypeError.
Proof. unfold type_of. by intros ->. Qed.

Lemma unwrap_truthy e : truthy e → unwrap e = OK (unwrap_value e).
Proof.
  intros He. unfold unwrap.
  by rewrite (type_of_ok e (truthy_not_nullish e He)).
Qed.

Lemma flatMap_unwrap l :
  Forall (λ e, truthy e) l →
  flatMap unwrap l = OK (l ≫= λ e, splice (unwrap_value e)).
Proof.
  induction 1 as [|e l He _ IH]; [done|].
  cbn [flatMap]. rewrite (unwrap_truthy e He). cbn. by rewrite IH.
Qed.

Lemma flatMap_filter l :
  flatMap unwrap (filter (λ c, truthy c) l) = OK (flatten_items l).
Proof.
  apply flatMap_unwrap, Forall_forall.
  by intros e [He _]%list_elem_of_filter.
Qed.

Lemma flatten_items_app l1 l2 :
  flatten_items (l1 ++ l2) = flatten_items l1 ++ flatten_items l2.
Proof. unfold flatten_items. by rewrite filter_app, bind_app. Qed.

Lemma flatten_items_cons e l :
  flatten_items (e :: l) = flatten_items [e] ++ flatten_items l.
Proof. apply (flatten_items_app [e] l). Qed.

Lemma flatten_items_fragment id c :
  flatten_items [JElem id ReactFragmentSymbol c]
  = splice (nullish_or c (JArr [])).
Proof.
  unfold flatten_items. rewrite filter_cons_True by done.
  rewrite filter_nil. cbn. rewrite app_nil_r.
  unfold unwrap_value. by rewrite decide_True.
Qed.

(** ** The registration loop *)

Lemma schema_get_elem schema k d :
  schema_get schema k = Some d → (k, d) ∈ schema.
Proof.
  induction schema as [|[k' d'] schema IH]; cbn; [done|].
  case_decide as Hk.
  - intros [= ->]. subst. left.
  - intros H. right. by apply IH.
Qed.

Lemma schema_get_wf schema k d :
  schema_wf schema → (k, d) ∈ schema → schema_get schema k = Some d.
Proof.
  unfold schema_wf. induction schema as [|[k' d'] schema IH]; cbn.
  - by intros _ ?%elem_of_nil.
  - intros [Hk' Hnd]%NoDup_cons [[= -> ->]|Hin]%elem_of_cons.
    + by rewrite decide_True.
    + rewrite decide_False; [by apply IH|].
      intros ->. apply Hk'. apply list_elem_of_fmap. by exists (k, d).
Qed.

Lemma allowMultiple_elem schema k :
  allowMultiple schema k = true → ∃ c, (k, Tuple c) ∈ schema.
Proof.
  unfold allowMultiple.
  destruct (schema_get schema k) as [[| c |]|] eqn:E; try done.
  intros _. exists c. by apply schema_get_elem.
Qed.

Lemma allowMultiple_wf schema k d :
  schema_wf schema → (k, d) ∈ schema →
  allowMultiple schema k = match d with Tuple _ => true | _ => false end.
Proof.
  intros Hwf Hin. unfold allowMultiple.
  by rewrite (schema_get_wf schema k d Hwf Hin).
Qed.

Lemma registration_snoc schema e :
  registration (schema ++ [e]) = register (registration schema) e.
Proof. unfold registration. by rewrite fold_left_app. Qed.

Lemma register_cm st k d :
  (register st (k, d)).1 = <[registered_identity d := k]> st.1.
Proof. by destruct d. Qed.

Lemma constructorMap_snoc schema k d :
  constructorMap (schema ++ [(k, d)])
  = <[registered_identity d := k]> (constructorMap schema).
Proof. unfold constructorMap. by rewrite registration_snoc, register_cm. Qed.

Lemma sortedSlots_snoc schema k d :
  sortedSlots (schema ++ [(k, d)])
  = match d with
    | Tuple _ => <[k := JArr []]> (sortedSlots schema)
    | _ => sortedSlots schema
    end.
Proof. unfold sortedSlots. rewrite registration_snoc. by destruct d. Qed.

(** Every binding of the identity lookup comes from a schema entry. *)
Lemma constructorMap_inv schema r k :
  constructorMap schema !! r = Some k →
  ∃ d, (k, d) ∈ schema ∧ registered_identity d = r.
Proof.
  induction schema as [|[k' d'] schema IH] using rev_ind; [done|].
  rewrite constructorMap_snoc, lookup_insert. case_decide as Hr.
  - intros [= ->]. exists d'. split; [|done].
    apply elem_of_app. right. left.
  - intros (d & Hin & Hd)%IH. exists d. split; [|done].
    apply elem_of_app. by left.
Qed.

(** The entry registered last for an identity owns it. *)
Lemma constructorMap_last s1 k d s2 :
  Forall (λ e, registered_identity e.2 ≠ registered_identity d) s2 →
  constructorMap (s1 ++ (k, d) :: s2) !! registered_identity d = Some k.
Proof.
  induction s2 as [|[k' d'] s2 IH] using rev_ind; intros Hs2.
  - by rewrite constructorMap_snoc, lookup_insert_eq.
  - apply Forall_app in Hs2 as [Hs2 Hd'%Forall_inv]. cbn in Hd'.
    rewrite app_comm_cons, app_assoc, constructorMap_snoc.
    rewrite lookup_insert_ne by done. by apply IH.
Qed.

Lemma constructorMap_unregistered schema r :
  Forall (λ e, registered_identity e.2 ≠ r) schema →
  constructorMap schema !! r = None.
Proof.
  intros Hs. destruct (constructorMap schema !! r) as [k|] eqn:E; [|done].
  apply constructorMap_inv in E as (d & Hin & Hd).
  rewrite Forall_forall in Hs. by destruct (Hs _ Hin).
Qed.

(** The pre-initialised slots are the repeatable ones, each empty. *)
Lemma sortedSlots_tuple schema k c :
  (k, Tuple c) ∈ schema → sortedSlots schema !! k = Some (JArr []).
Proof.
  induction schema as [|[k' d'] schema IH] using rev_ind.
  - by intros ?%elem_of_nil.
  - rewrite sortedSlots_snoc.
    intros [Hin|[= -> <-]%list_elem_of_singleton]%elem_of_app.
    + destruct d'; try by apply IH.
      rewrite lookup_insert. case_decide; [done|by apply IH].
    + by rewrite lookup_insert_eq.
Qed.

Lemma sortedSlots_inv schema k v :
  sortedSlots schema !! k = Some v →
  v = JArr [] ∧ ∃ c, (k, Tuple c) ∈ schema.
Proof.
  induction schema as [|[k' d'] schema IH] using rev_ind; [done|].
  rewrite sortedSlots_snoc. intros Hv.
  assert (sortedSlots schema !! k = Some v →
          v = JArr [] ∧ ∃ c, (k, Tuple c) ∈ schema ++ [(k', d')]) as IH'.
  { intros (-> & c & Hc)%IH. split; [done|]. exists c.
    apply elem_of_app. by left. }
  destruct d' as [c'|c'|o ms]; try by apply IH'.
  rewrite lookup_insert in Hv. case_decide as Hk; [|by apply IH'].
  injection Hv as <-. subst. split; [done|]. exists c'.
  apply elem_of_app. right. left.
Qed.

Lemma sortedSlots_multiple schema k :
  allowMultiple schema k = true → sortedSlots schema !! k = Some (JArr []).
Proof. intros [c Hc]%allowMultiple_elem. by apply (sortedSlots_tuple _ _ c). Qed.

Lemma sortedSlots_single schema k :
  schema_wf schema → allowMultiple schema k = false →
  sortedSlots schema !! k = None.
Proof.
  intros Hwf Hk. destruct (sortedSlots schema !! k) as [v|] eqn:E; [|done].
  apply sortedSlots_inv in E as (_ & c & Hc).
  by rewrite (allowMultiple_wf schema k (Tuple c) Hwf Hc) in Hk.
Qed.

(** ** Counting what single-valued slots drop *)

Lemma overwrites_snoc schema seen fl cv :
  overwrites schema seen (fl ++ [cv])
  = overwrites schema seen fl
    + (if overwrites_at schema (seen ++ fl) cv then 1 else 0).
Proof.
  revert seen. induction fl as [|n fl IH]; intros seen; cbn.
  - rewrite app_nil_r. lia.
  - rewrite IH, <- app_assoc. cbn. lia.
Qed.

Lemma slots_size_insert (m : gmap string Node) k v :
  slots_size (<[k := v]> m) + from_option slot_size 0 (m !! k)
  = slots_size m + slot_size v.
Proof.
  assert (Hnone : ∀ (m' : gmap string Node) x, m' !! k = None →
            slots_size (<[k := x]> m') = slot_size x + slots_size m').
  { intros m' x Hk. unfold slots_size.
    rewrite map_fold_insert_L; [done| |done]. intros. lia. }
  destruct (m !! k) as [old|] eqn:E; cbn.
  - rewrite <- (insert_delete_id m k old E) at 2.
    rewrite <- (insert_delete_eq m k v).
    rewrite !Hnone by apply lookup_delete_eq. lia.
  - rewrite Hnone by done. lia.
Qed.

Lemma slots_size_sortedSlots schema : slots_size (sortedSlots schema) = 0.
Proof.
  induction schema as [|[k d] schema IH] using rev_ind; [done|].
  rewrite sortedSlots_snoc. destruct d as [c|c|o ms]; try done.
  pose proof (slots_size_insert (sortedSlots schema) k (JArr [])) as H.
  destruct (sortedSlots schema !! k) as [old|] eqn:E; cbn in H.
  - apply sortedSlots_inv in E as [-> _]. cbn in H. lia.
  - lia.
Qed.

(** ** The reduce loop *)

(** A loop invariant indexed by the nodes already walked. *)
Lemma reduce_invariant (I : list Node → SlotResult → Prop) f :
  (∀ seen p cv, nullish cv = false → I seen p →
     ∃ p', f p cv = OK p' ∧ I (seen ++ [cv]) p') →
  ∀ fl seen p, Forall (λ n, nullish n = false) fl → I seen p →
     ∃ p', reduce f fl p = OK p' ∧ I (seen ++ fl) p'.
Proof.
  intros Hstep fl. induction fl as [|cv fl IH]; intros seen p Hfl Hp.
  - exists p. by rewrite app_nil_r.
  - apply Forall_cons in Hfl as [Hcv Hfl].
    destruct (Hstep seen p cv Hcv Hp) as (p1 & Hp1 & HI1).
    destruct (IH (seen ++ [cv]) p1 Hfl HI1) as (p2 & Hp2 & HI2).
    exists p2. cbn. rewrite Hp1. cbn. rewrite Hp2.
    by rewrite <- app_assoc in HI2.
Qed.

(** A [null] or [undefined] in the walked sequence makes [cv.type] throw. *)
Lemma reduce_throws schema cm fl p :
  Exists (λ n, nullish n = true) fl →
  reduce (reducer schema cm) fl p = Throw TypeError.
Proof.
  intros Hex. revert p. induction fl as [|cv fl IH]; intros p.
  - by apply Exists_nil in Hex.
  - cbn. destruct (nullish cv) eqn:Hcv.
    + unfold reducer. by rewrite type_of_throw.
    + apply Exists_cons in Hex as [Hex|Hex]; [congruence|].
      destruct (reducer schema cm p cv) as [p'|[]]; cbn; [by apply IH|done].
Qed.

Section Invariant.
Context (schema : list (string * SlotDef)).

Local Abbreviation cm := (constructorMap schema).

Lemma Inv_init : Inv schema [] (mkResult (sortedSlots schema) []).
Proof.
  split; cbn; [done| |done].
  intros key Hk. by apply sortedSlots_multiple.
Qed.

Lemma filter_snoc_slot (P : Node → Prop) `{∀ n, Decision (P n)} seen cv :
  filter P (seen ++ [cv]) = filter P seen ++ (if decide (P cv) then [cv] else []).
Proof.
  by rewrite filter_app.
Qed.

Lemma Inv_step seen p cv :
  nullish cv = false → Inv schema seen p →
  ∃ p', reducer schema cm p cv = OK p' ∧ Inv schema (seen ++ [cv]) p'.
Proof.
  intros Hcv [Hch Hmul Hsin]. unfold reducer.
  rewrite (type_of_ok cv Hcv). cbn.
  change (lookup_type cm (node_type cv)) with (slot_of cm cv).
  destruct (slot_of cm cv) as [key|] eqn:Hslot.
  - destruct (allowMultiple schema key) eqn:Hkey; cbn.
    + rewrite (Hmul key Hkey). eexists. split; [done|].
      split; cbn.
      * rewrite filter_snoc_slot, Hslot. cbn. by rewrite app_nil_r.
      * intros k Hk. rewrite filter_snoc_slot, Hslot, lookup_insert.
        case_decide as E; subst.
        -- by rewrite decide_True.
        -- rewrite decide_False by congruence. rewrite app_nil_r. by apply Hmul.
      * intros k Hk. rewrite filter_snoc_slot, Hslot.
        rewrite lookup_insert_ne by congruence.
        rewrite decide_False by congruence. rewrite app_nil_r. by apply Hsin.
    + eexists. split; [done|]. split; cbn.
      * rewrite filter_snoc_slot, Hslot. cbn. by rewrite app_nil_r.
      * intros k Hk. rewrite filter_snoc_slot, Hslot.
        rewrite lookup_insert_ne by congruence.
        rewrite decide_False by congruence. rewrite app_nil_r. by apply Hmul.
      * intros k Hk. rewrite filter_snoc_slot, Hslot, lookup_insert.
        case_decide as E; subst.
        -- rewrite decide_True by done. by rewrite last_snoc.
        -- rewrite decide_False by congruence. rewrite app_nil_r. by apply Hsin.
  - eexists. split; [done|]. split; cbn.
    + rewrite filter_snoc_slot, Hslot, Hch. by rewrite decide_True.
    + intros k Hk. rewrite filter_snoc_slot, Hslot.
      rewrite decide_False by done. rewrite app_nil_r. by apply Hmul.
    + intros k Hk. rewrite filter_snoc_slot, Hslot.
      rewrite decide_False by done. rewrite app_nil_r. by apply Hsin.
Qed.

(** A matched node is an element, so a single-valued slot has size 1. *)
Lemma slot_of_size n key : slot_of cm n = Some key → slot_size n = 1.
Proof. by destruct n as [| | | | | |id [] c]. Qed.

Lemma Count_step seen p cv :
  schema_wf schema → nullish cv = false →
  Inv schema seen p ∧ Count schema seen p →
  ∃ p', reducer schema cm p cv = OK p'
        ∧ (Inv schema (seen ++ [cv]) p' ∧ Count schema (seen ++ [cv]) p').
Proof.
  intros Hwf Hcv [HI HC].
  destruct (Inv_step seen p cv Hcv HI) as (p' & Hp' & HI').
  exists p'. split; [done|]. split; [done|].
  revert Hp'. unfold reducer. rewrite (type_of_ok cv Hcv). cbn.
  change (lookup_type cm (node_type cv)) with (slot_of cm cv).
  unfold Count in *.
  rewrite overwrites_snoc, length_app. cbn [app length].
  unfold overwrites_at.
  destruct (slot_of cm cv) as [key|] eqn:Hslot.
  - destruct (allowMultiple schema key) eqn:Hkey; cbn.
    + rewrite (inv_multiple _ _ _ HI key Hkey). intros [= <-]. cbn.
      pose proof (slots_size_insert (slots p) key
        (JArr (filter (λ n, slot_of cm n = Some key) seen ++ [cv]))) as Hsz.
      rewrite (inv_multiple _ _ _ HI key Hkey) in Hsz. cbn in Hsz.
      rewrite length_app in Hsz. cbn in Hsz. lia.
    + intros [= <-]. cbn.
      pose proof (slots_size_insert (slots p) key cv) as Hsz.
      rewrite (slot_of_size cv key Hslot) in Hsz.
      rewrite (inv_single _ _ _ HI key Hkey) in Hsz.
      rewrite (sortedSlots_single schema key Hwf Hkey) in Hsz.
      destruct (last (filter (λ n, slot_of cm n = Some key) seen))
        as [n|] eqn:Hlast; cbn in Hsz.
      * assert (Hn : n ∈ filter (λ n, slot_of cm n = Some key) seen).
        { apply last_Some in Hlast as [l' ->]. apply elem_of_app. right. left. }
        apply list_elem_of_filter in Hn as [Hn Hin].
        rewrite (slot_of_size n key Hn) in Hsz.
        rewrite bool_decide_eq_true_2; [lia|].
        apply Exists_exists. by exists n.
      * rewrite bool_decide_eq_false_2; [lia|].
        intros (n & Hin & Hn)%Exists_exists.
        apply last_None in Hlast.
        assert (n ∈ filter (λ n, slot_of cm n = Some key) seen) as Hn'
          by by apply list_elem_of_filter.
        rewrite Hlast in Hn'. by apply elem_of_nil in Hn'.
  - intros [= <-]. cbn. rewrite length_app. cbn. lia.
Qed.
End Invariant.

(** ** getSlots as a whole *)

Lemma getSlots_reduce kids schema :
  getSlots kids schema
  = reduce (reducer schema (constructorMap schema)) (flattened kids)
           (mkResult (sortedSlots schema) []).
Proof. unfold getSlots. by rewrite flatMap_filter. Qed.

(** [getSlots] returns whenever no [null] or [undefined] survives the
    flattening, and its result is the one the invariant describes. *)
Lemma getSlots_total kids schema :
  Forall (λ n, nullish n = false) (flattened kids) →
  ∃ r, getSlots kids schema = OK r ∧ Inv schema (flattened kids) r.
Proof.
  intros Hfl. rewrite getSlots_reduce.
  apply (reduce_invariant (Inv schema) _ (Inv_step schema) _ [] _ Hfl).
  apply Inv_init.
Qed.

Lemma getSlots_throws kids schema :
  Exists (λ n, nullish n = true) (flattened kids) →
  getSlots kids schema = Throw TypeError.
Proof. intros Hex. rewrite getSlots_reduce. by apply reduce_throws. Qed.

Lemma getSlots_OK_clean kids schema r :
  getSlots kids schema = OK r →
  Forall (λ n, nullish n = false) (flattened kids).
Proof.
  intros Hr. apply Forall_forall. intros n Hn.
  destruct (nullish n) eqn:E; [|done].
  rewrite getSlots_throws in Hr; [done|].
  apply Exists_exists. by exists n.
Qed.

Lemma getSlots_Inv kids schema r :
  getSlots kids schema = OK r → Inv schema (flattened kids) r.
Proof.
  intros Hr.
  destruct (getSlots_total kids schema (getSlots_OK_clean _ _ _ Hr))
    as (r' & Hr' & HI).
  congruence.
Qed.

Lemma getSlots_Count kids schema r :
  schema_wf schema → getSlots kids schema = OK r →
  Count schema (flattened kids) r.
Proof.
  intros Hwf Hr. pose proof (getSlots_OK_clean _ _ _ Hr) as Hfl.
  rewrite getSlots_reduce in Hr.
  destruct (reduce_invariant (λ seen p, Inv schema seen p ∧ Count schema seen p)
              _ (λ seen p cv, Count_step schema seen p cv Hwf) _ []
              (mkResult (sortedSlots schema) []) Hfl)
    as (r' & Hr' & _ & HC).
  - split; [apply Inv_init|]. unfold Count. cbn.
    by rewrite slots_size_sortedSlots.
  - cbn in HC. congruence.
Qed.

(** Two entries under one key are one entry. *)
Lemma schema_wf_functional schema k d d' :
  schema_wf schema → (k, d) ∈ schema → (k, d') ∈ schema → d = d'.
Proof.
  intros Hwf H1%(schema_get_wf _ _ _ Hwf) H2%(schema_get_wf _ _ _ Hwf).
  congruence.
Qed.

(** A node is matched to [key] only through the identity that the entry of
    [key] registers. *)
Lemma slot_of_entry schema n key d :
  schema_wf schema → (key, d) ∈ schema →
  slot_of (constructorMap schema) n = Some key →
  node_type n = TyRef (registered_identity d).
Proof.
  intros Hwf Hin. unfold slot_of.
  destruct (node_type n) as [| |r|]; cbn; try done.
  intros (d' & Hin' & <-)%constructorMap_inv.
  by rewrite (schema_wf_functional schema key d d' Hwf Hin Hin').
Qed.

(** What a slot of the result holds was matched to that slot. *)
Lemma Inv_slot_member schema seen r key v n :
  schema_wf schema → Inv schema seen r →
  slots r !! key = Some v → n ∈ splice v →
  n ∈ seen ∧ slot_of (constructorMap schema) n = Some key.
Proof.
  intros Hwf [_ Hmul Hsin] Hv Hn.
  destruct (allowMultiple schema key) eqn:Hkey.
  - rewrite (Hmul key Hkey) in Hv. injection Hv as <-. cbn in Hn.
    apply list_elem_of_filter in Hn as [??]. done.
  - rewrite (Hsin key Hkey), (sortedSlots_single schema key Hwf Hkey) in Hv.
    destruct (last _) as [m|] eqn:Hlast; [|done]. injection Hv as <-.
    assert (Hm : m ∈ filter (λ n, slot_of (constructorMap schema) n = Some key) seen).
    { apply last_Some in Hlast as [l' ->]. apply elem_of_app. right. left. }
    apply list_elem_of_filter in Hm as [Hm Hin].
    assert (splice m = [m]) as Hsp.
    { unfold slot_of in Hm. by destruct m as [| | | | | |id [] c]. }
    rewrite Hsp in Hn. apply list_elem_of_singleton in Hn as ->. done.
Qed.

(** The slots depend on the walked sequence only through the matched nodes. *)
Lemma Inv_slots_ext schema seen1 seen2 r1 r2 :
  Inv schema seen1 r1 → Inv schema seen2 r2 →
  (∀ key, filter (λ n, slot_of (constructorMap schema) n = Some key) seen1
          = filter (λ n, slot_of (constructorMap schema) n = Some key) seen2) →
  slots r1 = slots r2.
Proof.
  intros [_ Hm1 Hs1] [_ Hm2 Hs2] Hf. apply map_eq. intros key.
  destruct (allowMultiple schema key) eqn:Hkey.
  - by rewrite (Hm1 key Hkey), (Hm2 key Hkey), Hf.
  - by rewrite (Hs1 key Hkey), (Hs2 key Hkey), Hf.
Qed.

(** ** Namespaced entries *)

(** C1, counterexample: with the schema [{ Namespaced: { GenericDiv } }] a
    lone [<GenericDiv />] is still in the returned [children] (the
    repository's test "handles namespaced slot" expects one child). *)
Lemma namespaced_removed_fails :
  ¬ namespaced_removed (Tests.generic 1)
      [("Namespaced", Mapping 20 [("GenericDiv", Tests.GenericDiv)])].
Proof.
  intros H.
  destruct (H "Namespaced" 20 "GenericDiv" Tests.GenericDiv
              (mkResult ∅ [Tests.generic 1])) as [Hrm _].
  - left.
  - by vm_compute.
  - apply (Hrm (Tests.generic 1)); [left|done|left].
Qed.

(** C1, amended: [getSlots] registers the mapping object of a namespaced
    entry, not the component nested in it.  A node whose type is the nested
    component stays in [children] when no schema entry registers that
    component, and the key of the entry is absent from [slots] when no node
    has the mapping object itself as its type. *)
Theorem namespaced_entry_keeps_children kids schema key o label c r :
  schema_wf schema →
  (key, Mapping o [(label, c)]) ∈ schema →
  getSlots kids schema = OK r →
  (Forall (λ e, registered_identity e.2 ≠ c) schema →
   ∀ n, n ∈ flattened kids → node_type n = TyRef c → n ∈ children r)
  ∧ ((∀ n, n ∈ flattened kids → node_type n ≠ TyRef o) →
     slots r !! key = None).
Proof.
  intros Hwf Hin Hr. pose proof (getSlots_Inv _ _ _ Hr) as HI. split.
  - intros Hc n Hn Hty. rewrite (inv_children _ _ _ HI).
    apply list_elem_of_filter. split; [|done].
    unfold slot_of. rewrite Hty. cbn.
    by apply constructorMap_unregistered.
  - intros Hno.
    destruct (slots r !! key) as [v|] eqn:Hv; [exfalso|done].
    assert (allowMultiple schema key = false) as Hkey
      by by rewrite (allowMultiple_wf _ _ _ Hwf Hin).
    rewrite (inv_single _ _ _ HI key Hkey) in Hv.
    rewrite (sortedSlots_single _ _ Hwf Hkey) in Hv.
    destruct (last _) as [m|] eqn:Hlast; [|done].
    assert (Hm : m ∈ filter (λ n, slot_of (constructorMap schema) n = Some key)
                        (flattened kids)).
    { apply last_Some in Hlast as [l' ->]. apply elem_of_app. right. left. }
    apply list_elem_of_filter in Hm as [Hm Hmin].
    apply (Hno m Hmin). by apply (slot_of_entry schema m key _ Hwf Hin).
Qed.

(** An instance: the schema and the child of the test "handles namespaced slot". *)
Lemma namespaced_entry_keeps_children_witness :
  Tests.generic 1 ∈ children (mkResult ∅ [Tests.generic 1])
  ∧ slots (mkResult ∅ [Tests.generic 1]) !! "Namespaced" = None.
Proof.
  destruct (namespaced_entry_keeps_children (Tests.generic 1)
              [("Namespaced", Mapping 20 [("GenericDiv", Tests.GenericDiv)])]
              "Namespaced" 20 "GenericDiv" Tests.GenericDiv
              (mkResult ∅ [Tests.generic 1])) as [H1 H2].
  - unfold schema_wf. cbn. apply NoDup_singleton.
  - left.
  - by vm_compute.
  - split.
    + apply (H1 ltac:(by repeat constructor) (Tests.generic 1)); [left|done].
    + apply H2. intros n ->%list_elem_of_singleton. done.
Defined.

(** ** Falsy placeholders inside a fragment *)

(** Whatever the schema, a [null] among the children of a top-level fragment
    makes [getSlots] throw. *)
Lemma getSlots_null_in_fragment schema pre id l1 l2 post :
  getSlots (JArr (pre ++ JElem id ReactFragmentSymbol (JArr (l1 ++ JNull :: l2)) :: post))
           schema
  = Throw TypeError.
Proof.
  apply getSlots_throws. unfold flattened. cbn [normalize truthy negb].
  rewrite flatten_items_app, flatten_items_cons, flatten_items_fragment.
  cbn [nullish_or nullish splice].
  apply Exists_app. right. apply Exists_app. left.
  apply Exists_app. right. by left.
Qed.

(** C2, the failing input: [getSlots] filters falsy values at the top level
    only.  A [null] among the children of a fragment reaches the [reduce]
    callback, where [cv.type] throws. *)
Theorem getSlots_null_in_fragment_throws :
  getSlots (JArr [Tests.Fragment 5 (JArr [JNull; Tests.generic 1])])
           Tests.SLOT_SCHEMA
  = Throw TypeError.
Proof. by vm_compute. Qed.

(** ** Empty input *)

(** C7: with absent (any falsy) or empty children, [children] is empty, every
    repeatable entry is present as the empty sequence, and no other entry is
    present. *)
Theorem getSlots_empty_children kids schema :
  schema_wf schema →
  truthy kids = false ∨ kids = JArr [] →
  ∃ r, getSlots kids schema = OK r
       ∧ children r = []
       ∧ ∀ key d, (key, d) ∈ schema →
           slots r !! key = match d with
                            | Tuple _ => Some (JArr [])
                            | _ => None
                            end.
Proof.
  intros Hwf Hkids. exists (mkResult (sortedSlots schema) []).
  split; [|split; [done|]].
  - rewrite getSlots_reduce.
    assert (flattened kids = []) as ->; [|done].
    unfold flattened, normalize. by destruct Hkids as [->| ->].
  - intros key d Hin. cbn.
    destruct d as [c|c|o ms].
    + apply sortedSlots_single; [done|]. by rewrite (allowMultiple_wf _ _ _ Hwf Hin).
    + by apply (sortedSlots_tuple _ _ c).
    + apply sortedSlots_single; [done|]. by rewrite (allowMultiple_wf _ _ _ Hwf Hin).
Qed.

(** An instance: absent children under a schema with the three kinds of entry. *)
Lemma getSlots_empty_children_witness :
  ∃ r, getSlots JUndefined
         [("Title", Component 1); ("Items", Tuple 2); ("Ns", Mapping 3 [("Item", 4)])]
       = OK r
       ∧ children r = []
       ∧ ∀ key d,
           (key, d) ∈ [("Title", Component 1); ("Items", Tuple 2);
                        ("Ns", Mapping 3 [("Item", 4)])] →
           slots r !! key = match d with
                            | Tuple _ => Some (JArr [])
                            | _ => None
                            end.
Proof.
  apply (getSlots_empty_children JUndefined
           [("Title", Component 1); ("Items", Tuple 2); ("Ns", Mapping 3 [("Item", 4)])]).
  - unfold schema_wf. by apply (bool_decide_unpack _).
  - by left.
Defined.

(** ** resolveChildSlot and the static properties *)

Lemma assign_property_ok t k v t' :
  assign_property t (k, v) = OK t' →
  if decide (k = "__proto__")
  then proto t' = Some v ∧ own_props t' = own_props t
  else own_props t' = <[k := SDef v]> (own_props t) ∧ proto t' = proto t.
Proof.
  unfold assign_property. cbn [fst snd].
  destruct (decide (k = "name" ∨ k = "length")) as [|_]; [done|].
  destruct (decide (k = "__proto__")) as [->|Hk].
  - by intros [= <-].
  - destruct (decide (k = "arguments" ∨ k = "caller")) as [|_].
    + destruct (proto t) as [[c|c|o' ms]|]; try done. by intros [= <-].
    + by intros [= <-].
Qed.

(** A key that the source does not hold is left as it was. *)
Lemma Object_assign_other src t t' k :
  Object_assign t src = OK t' → k ∉ src.*1 →
  own_props t' !! k = own_props t !! k.
Proof.
  revert t. induction src as [|[k0 v0] src IH]; intros t; cbn.
  - by intros [= <-].
  - destruct (assign_property t (k0, v0)) as [t0|e] eqn:E; cbn; [|done].
    intros Hrest [Hne Hk]%not_elem_of_cons.
    rewrite (IH t0 Hrest Hk). apply assign_property_ok in E.
    destruct (decide (k0 = "__proto__")).
    + by destruct E as [_ ->].
    + destruct E as [-> _]. by rewrite lookup_insert_ne.
Qed.

Lemma Object_assign_proto src t t' :
  Object_assign t src = OK t' → "__proto__" ∉ src.*1 → proto t' = proto t.
Proof.
  revert t. induction src as [|[k0 v0] src IH]; intros t; cbn.
  - by intros [= <-].
  - destruct (assign_property t (k0, v0)) as [t0|e] eqn:E; cbn; [|done].
    intros Hrest [Hne Hk]%not_elem_of_cons.
    rewrite (IH t0 Hrest Hk). apply assign_property_ok in E.
    rewrite decide_False in E by done. by destruct E as [_ ->].
Qed.

(** After a successful [Object.assign], every property of the source is on
    the target: as the prototype for [__proto__], as an own property
    otherwise. *)
Lemma Object_assign_lookup src t t' k v :
  NoDup src.*1 → Object_assign t src = OK t' → (k, v) ∈ src →
  if decide (k = "__proto__")
  then proto t' = Some v
  else own_props t' !! k = Some (SDef v).
Proof.
  revert t. induction src as [|[k0 v0] src IH]; intros t; cbn.
  - by intros _ _ ?%elem_of_nil.
  - intros [Hk0 Hnd]%NoDup_cons.
    destruct (assign_property t (k0, v0)) as [t0|e] eqn:E; cbn; [|done].
    intros Hrest [[= -> ->]|Hin]%elem_of_cons; [|by apply (IH t0)].
    apply assign_property_ok in E. destruct (decide (k0 = "__proto__")) as [->|Hne].
    + destruct E as [E _]. by rewrite (Object_assign_proto _ _ _ Hrest Hk0).
    + destruct E as [E _].
      rewrite (Object_assign_other _ _ _ _ Hrest Hk0), E.
      by rewrite lookup_insert_eq.
Qed.

Lemma withSlots_slots_keys own schema :
  (withSlots_slots own schema).*1 = (Object_entries own schema).*1.
Proof.
  unfold withSlots_slots.
  induction (Object_entries own schema) as [|[k d] l IH]; [done|].
  cbn. by rewrite IH.
Qed.

Lemma Object_entries_keys own schema k :
  k ∈ (Object_entries own schema).*1 → k ∈ schema.*1.
Proof.
  intros ([k' d] & -> & [_ Hin]%list_elem_of_filter)%list_elem_of_fmap.
  apply list_elem_of_fmap. by exists (k', d).
Qed.

Lemma Object_entries_wf own schema :
  schema_wf schema → NoDup (Object_entries own schema).*1.
Proof.
  unfold schema_wf, Object_entries.
  induction schema as [|[k d] schema IH]; [constructor|].
  cbn [fmap list_fmap fst]. intros [Hk Hnd]%NoDup_cons.
  destruct (decide (own (k, d).1)) as [Hown|Hown].
  - rewrite filter_cons_True by done. cbn [fmap list_fmap fst].
    apply NoDup_cons. split; [|by apply IH].
    intros Hin. apply Hk. by apply (Object_entries_keys own).
  - rewrite filter_cons_False by done. by apply IH.
Qed.

Lemma withSlots_slots_elem own schema key d :
  (key, d) ∈ schema → own key = true →
  (key, resolveChildSlot d) ∈ withSlots_slots own schema.
Proof.
  intros Hin Hown. unfold withSlots_slots, Object_entries.
  apply list_elem_of_fmap. exists (key, d). split; [done|].
  apply list_elem_of_filter. split; [|done]. cbn. by rewrite Hown.
Qed.

Lemma withSlots_ok own schema w :
  withSlots own schema = OK w →
  provider w = SlotProvider schema
  ∧ Object_assign (function_object "SlotProvider" 1) (withSlots_slots own schema)
    = OK (fn w).
Proof.
  unfold withSlots.
  destruct (Object_assign _ _) as [f|e]; cbn; [|done]. by intros [= <-].
Qed.

(** What [withSlots] attaches for an own entry of the schema. *)
Lemma withSlots_attached own schema key d w :
  schema_wf schema → (key, d) ∈ schema → own key = true →
  withSlots own schema = OK w →
  if decide (key = "__proto__")
  then proto (fn w) = Some (resolveChildSlot d)
  else static_props w !! key = Some (SDef (resolveChildSlot d)).
Proof.
  intros Hwf Hin Hown [_ Hw]%withSlots_ok.
  apply (Object_assign_lookup _ _ _ _ _
           ltac:(rewrite withSlots_slots_keys; by apply Object_entries_wf) Hw).
  by apply withSlots_slots_elem.
Qed.

(** C9: [resolveChildSlot] returns the entry itself for a component, the sole
    element for a tuple and the single nested value for a one-key mapping.
    On the component that [withSlots] returns, that value is the own property
    named by the key of each own entry of the schema (for the key
    [__proto__], whose assignment runs a setter, it is the prototype). *)
Theorem resolveChildSlot_attached own schema key d w :
  schema_wf schema → (key, d) ∈ schema → own key = true →
  withSlots own schema = OK w →
  (∀ c, d = Component c → resolveChildSlot d = d)
  ∧ (∀ c, d = Tuple c → resolveChildSlot d = Component c)
  ∧ (∀ o label c, d = Mapping o [(label, c)] → resolveChildSlot d = Component c)
  ∧ (if decide (key = "__proto__")
     then proto (fn w) = Some (resolveChildSlot d)
     else static_props w !! key = Some (SDef (resolveChildSlot d))).
Proof.
  intros Hwf Hin Hown Hw. repeat split.
  - by intros c ->.
  - by intros c ->.
  - by intros o label c ->.
  - by apply (withSlots_attached own schema).
Qed.

(** An instance: the property attached for a namespaced entry. *)
Lemma resolveChildSlot_attached_witness :
  static_props
    (mkSlotted
       (SlotProvider [("Title", Component 1); ("Items", Tuple 2);
                      ("Ns", Mapping 3 [("Item", 4)])])
       (mkFunction {[ "length" := SNumber 1; "name" := SString "SlotProvider";
                      "prototype" := SObject; "Title" := SDef (Component 1);
                      "Items" := SDef (Component 2); "Ns" := SDef (Component 4) ]}
                   None))
    !! "Ns"
  = Some (SDef (Component 4)).
Proof.
  destruct (resolveChildSlot_attached (λ _, true)
              [("Title", Component 1); ("Items", Tuple 2); ("Ns", Mapping 3 [("Item", 4)])]
              "Ns" (Mapping 3 [("Item", 4)])
              (mkSlotted
                 (SlotProvider [("Title", Component 1); ("Items", Tuple 2);
                                ("Ns", Mapping 3 [("Item", 4)])])
                 (mkFunction {[ "length" := SNumber 1; "name" := SString "SlotProvider";
                                "prototype" := SObject; "Title" := SDef (Component 1);
                                "Items" := SDef (Component 2);
                                "Ns" := SDef (Component 4) ]}
                             None)))
    as (_ & _ & _ & Hs).
  - unfold schema_wf. by apply (bool_decide_unpack _).
  - do 2 right. left.
  - done.
  - by vm_compute.
  - exact Hs.
Defined.

(** ** Mappings with several keys *)

(** C8, counterexample: a two-key mapping is accepted; with no children the
    call returns the empty result. *)
Lemma multi_key_rejected_fails :
  ¬ multi_key_rejected JUndefined [("Ns", Mapping 20 [("A", 1); ("B", 2)])].
Proof.
  intros H. destruct H as [e He].
  - exists "Ns", 20, [("A", 1); ("B", 2)]. split; [left|cbn; lia].
  - by vm_compute in He.
Qed.

Lemma allowMultiple_members s1 key o ms ms' s2 k :
  allowMultiple (s1 ++ (key, Mapping o ms) :: s2) k
  = allowMultiple (s1 ++ (key, Mapping o ms') :: s2) k.
Proof.
  unfold allowMultiple. induction s1 as [|[k1 d1] s1 IH]; cbn.
  - by case_decide.
  - by case_decide.
Qed.

Lemma registration_members s1 key o ms ms' s2 :
  registration (s1 ++ (key, Mapping o ms) :: s2)
  = registration (s1 ++ (key, Mapping o ms') :: s2).
Proof. unfold registration. by rewrite !fold_left_app. Qed.

Lemma reduce_ext f g l p :
  (∀ p cv, f p cv = g p cv) → reduce f l p = reduce g l p.
Proof.
  intros Hfg. revert p. induction l as [|cv l IH]; intros p; [done|].
  cbn. rewrite Hfg. destruct (g p cv); cbn; [apply IH|done].
Qed.

(** C8, amended: a mapping with more than one key raises nothing.
    [getSlots] never reads the keys of a mapping: it registers the mapping
    object and returns what it returns for any other set of keys, in
    particular a result whenever no [null] or [undefined] is left after
    flattening; [resolveChildSlot] returns such a mapping unchanged. *)
Theorem multi_key_mapping_accepted kids s1 key o members s2 :
  1 < length members →
  Forall (λ n, nullish n = false) (flattened kids) →
  (∃ r, getSlots kids (s1 ++ (key, Mapping o members) :: s2) = OK r)
  ∧ (∀ members', getSlots kids (s1 ++ (key, Mapping o members) :: s2)
                 = getSlots kids (s1 ++ (key, Mapping o members') :: s2))
  ∧ resolveChildSlot (Mapping o members) = Mapping o members.
Proof.
  intros Hlen Hfl. repeat split.
  - destruct (getSlots_total kids (s1 ++ (key, Mapping o members) :: s2) Hfl)
      as (r & Hr & _).
    by exists r.
  - intros members'. rewrite !getSlots_reduce.
    unfold constructorMap, sortedSlots.
    rewrite (registration_members s1 key o members members' s2).
    apply reduce_ext. intros p cv. unfold reducer.
    destruct (type_of cv) as [ty|e]; cbn; [|done].
    destruct (lookup_type _ ty) as [k|]; [|done].
    by rewrite (allowMultiple_members s1 key o members members' s2 k).
  - cbn. rewrite decide_False by lia. done.
Qed.

(** An instance: a two-key mapping classifies as its one-key restriction. *)
Lemma multi_key_mapping_accepted_witness :
  getSlots (Tests.generic 1) [("Ns", Mapping 20 [("A", 1); ("B", 2)])]
  = getSlots (Tests.generic 1) [("Ns", Mapping 20 [("A", 1)])].
Proof.
  destruct (multi_key_mapping_accepted (Tests.generic 1) [] "Ns" 20
              [("A", 1); ("B", 2)] []) as (_ & H & _).
  - cbn. lia.
  - by repeat constructor.
  - apply (H [("A", 1)]).
Defined.

(** ** Order *)

(** C6: the returned [children] and every repeatable slot are the walked
    sequence with some nodes left out, the others in their input order (a
    stable partition). *)
Theorem getSlots_preserves_order kids schema r :
  schema_wf schema →
  getSlots kids schema = OK r →
  (children r
     = filter (λ n, slot_of (constructorMap schema) n = None) (flattened kids)
   ∧ children r `sublist_of` flattened kids)
  ∧ ∀ key c, (key, Tuple c) ∈ schema →
      ∃ l, slots r !! key = Some (JArr l)
           ∧ l = filter (λ n, slot_of (constructorMap schema) n = Some key)
                        (flattened kids)
           ∧ l `sublist_of` flattened kids.
Proof.
  intros Hwf Hr. pose proof (getSlots_Inv _ _ _ Hr) as HI. split.
  - rewrite (inv_children _ _ _ HI). split; [done|]. apply sublist_filter.
  - intros key c Hin. eexists. split; [|split; [done|]].
    + apply (inv_multiple _ _ _ HI).
      by rewrite (allowMultiple_wf _ _ _ Hwf Hin).
    + apply sublist_filter.
Qed.

(** An instance: the children of the test "handles multiples of slot". *)
Lemma getSlots_preserves_order_witness :
  [Tests.div 4] `sublist_of`
    [Tests.generic 1; Tests.generic 2; Tests.generic 3; Tests.div 4]
  ∧ ∃ l, ({["GenericDiv" := JArr [Tests.generic 1; Tests.generic 2; Tests.generic 3]]}
            : gmap string Node) !! "GenericDiv" = Some (JArr l)
         ∧ l `sublist_of`
             [Tests.generic 1; Tests.generic 2; Tests.generic 3; Tests.div 4].
Proof.
  destruct (getSlots_preserves_order
              (JArr [Tests.generic 1; Tests.generic 2; Tests.generic 3; Tests.div 4])
              Tests.SLOT_SCHEMA
              (mkResult {["GenericDiv" := JArr [Tests.generic 1; Tests.generic 2;
                                                 Tests.generic 3]]}
                        [Tests.div 4])) as [[_ Hc] Hs].
  - unfold schema_wf. by apply (bool_decide_unpack _).
  - by vm_compute.
  - split; [exact Hc|].
    destruct (Hs "GenericDiv" Tests.GenericDiv) as (l & Hl & _ & Hsub); [left|].
    by exists l.
Defined.

(** ** Duplicates on a single-valued slot *)

(** Under a well-formed schema, the nodes matched to the entry that owns the
    identity [c] are the nodes of type [c]. *)
Lemma filter_slot_of_type schema key d (fl : list Node) :
  schema_wf schema → (key, d) ∈ schema →
  constructorMap schema !! registered_identity d = Some key →
  filter (λ n, slot_of (constructorMap schema) n = Some key) fl
  = filter (λ n, node_type n = TyRef (registered_identity d)) fl.
Proof.
  intros Hwf Hin Hcm. apply list_filter_iff. intros n. split.
  - by apply slot_of_entry.
  - intros Hty. unfold slot_of. by rewrite Hty.
Qed.

(** C4: when two or more walked nodes match one single-component entry, the
    slot holds the last of them; the others are in no slot and not in
    [children]. *)
Theorem last_match_wins kids schema key c r :
  schema_wf schema →
  (key, Component c) ∈ schema →
  constructorMap schema !! c = Some key →
  getSlots kids schema = OK r →
  2 ≤ length (filter (λ n, node_type n = TyRef c) (flattened kids)) →
  ∃ final,
    last (filter (λ n, node_type n = TyRef c) (flattened kids)) = Some final
    ∧ slots r !! key = Some final
    ∧ ∀ n, n ∈ flattened kids → node_type n = TyRef c → n ≠ final →
        (n ∉ children r)
        ∧ ∀ k v, slots r !! k = Some v → n ∉ splice v.
Proof.
  intros Hwf Hin Hcm Hr Hlen. pose proof (getSlots_Inv _ _ _ Hr) as HI.
  assert (allowMultiple schema key = false) as Hkey
    by by rewrite (allowMultiple_wf _ _ _ Hwf Hin).
  pose proof (inv_single _ _ _ HI key Hkey) as Hslot.
  rewrite (filter_slot_of_type schema key (Component c) _ Hwf Hin Hcm) in Hslot.
  cbn [registered_identity] in Hslot.
  destruct (last (filter (λ n, node_type n = TyRef c) (flattened kids)))
    as [final|] eqn:Hlast.
  2: { apply last_None in Hlast. rewrite Hlast in Hlen. cbn in Hlen. lia. }
  exists final. split; [done|]. split; [done|].
  intros n Hn Hty Hne.
  assert (slot_of (constructorMap schema) n = Some key) as Hmatch
    by (unfold slot_of; by rewrite Hty).
  split.
  - rewrite (inv_children _ _ _ HI).
    intros [Hnone _]%list_elem_of_filter. congruence.
  - intros k v Hv Hnv.
    destruct (Inv_slot_member schema _ r k v n Hwf HI Hv Hnv) as [_ Hk].
    assert (k = key) as -> by congruence.
    assert (v = final) as -> by congruence.
    assert (slot_size final = 1) as Hsz.
    { apply (slot_of_size schema final key).
      apply last_Some in Hlast as [l' Hl'].
      assert (final ∈ filter (λ n, node_type n = TyRef c) (flattened kids)) as Hf
        by (rewrite Hl'; apply elem_of_app; right; left).
      apply list_elem_of_filter in Hf as [Hf _]. unfold slot_of. by rewrite Hf. }
    destruct final; cbn in Hnv;
      try (apply list_elem_of_singleton in Hnv; congruence).
    apply last_Some in Hlast as [l' Hl'].
    assert (JArr items ∈ filter (λ n, node_type n = TyRef c) (flattened kids)) as Hf
      by (rewrite Hl'; apply elem_of_app; right; left).
    by apply list_elem_of_filter in Hf as [Hf _].
Qed.

(** An instance: two titles around a plain child. *)
Lemma last_match_wins_witness :
  ∃ final,
    last (filter (λ n, node_type n = TyRef 7)
            (flattened (JArr [JElem 1 (TyRef 7) JUndefined; Tests.div 2;
                              JElem 3 (TyRef 7) JUndefined]))) = Some final
    ∧ slots (mkResult {["Title" := JElem 3 (TyRef 7) JUndefined]} [Tests.div 2])
        !! "Title" = Some final.
Proof.
  destruct (last_match_wins
              (JArr [JElem 1 (TyRef 7) JUndefined; Tests.div 2;
                     JElem 3 (TyRef 7) JUndefined])
              [("Title", Component 7)] "Title" 7
              (mkResult {["Title" := JElem 3 (TyRef 7) JUndefined]} [Tests.div 2]))
    as (final & Hlast & Hslot & _).
  - unfold schema_wf. by apply (bool_decide_unpack _).
  - left.
  - by vm_compute.
  - by vm_compute.
  - vm_compute. lia.
  - by exists final.
Defined.

(** ** One identity under several keys *)

Lemma filter_none (P : Node → Prop) `{∀ n, Decision (P n)} (l : list Node) :
  (∀ n, n ∈ l → ¬ P n) → filter P l = [].
Proof.
  induction l as [|n l IH]; intros Hl; [done|].
  rewrite filter_cons_False by (apply Hl; left).
  apply IH. intros m Hm. apply Hl. by right.
Qed.

(** C10: when entries share the identity they register, the lookup keeps the
    key of the last one.  Every node of that identity is matched to that key:
    its slot holds them all (repeatable) or the last of them (otherwise).
    An earlier entry is never matched: its slot stays the empty sequence
    (repeatable) or absent (otherwise). *)
Theorem shared_identity_last_entry_wins kids s1 k2 d2 s2 k1 d1 r :
  schema_wf (s1 ++ (k2, d2) :: s2) →
  Forall (λ e, registered_identity e.2 ≠ registered_identity d2) s2 →
  (k1, d1) ∈ s1 →
  registered_identity d1 = registered_identity d2 →
  getSlots kids (s1 ++ (k2, d2) :: s2) = OK r →
  constructorMap (s1 ++ (k2, d2) :: s2) !! registered_identity d2 = Some k2
  ∧ (∀ n, node_type n = TyRef (registered_identity d2) →
       slot_of (constructorMap (s1 ++ (k2, d2) :: s2)) n = Some k2)
  ∧ slots r !! k2
    = (let matched := filter (λ n, node_type n = TyRef (registered_identity d2))
                             (flattened kids) in
       match d2 with
       | Tuple _ => Some (JArr matched)
       | _ => last matched
       end)
  ∧ slots r !! k1 = match d1 with
                    | Tuple _ => Some (JArr [])
                    | _ => None
                    end.
Proof.
  intros Hwf Hs2 Hin1 Hid Hr.
  set (schema := s1 ++ (k2, d2) :: s2) in *.
  pose proof (getSlots_Inv _ _ _ Hr) as HI.
  pose proof (constructorMap_last s1 k2 d2 s2 Hs2) as Hcm. fold schema in Hcm.
  assert ((k2, d2) ∈ schema) as Hin2 by (apply elem_of_app; right; left).
  assert ((k1, d1) ∈ schema) as Hin1' by (apply elem_of_app; by left).
  assert (k1 ≠ k2) as Hne.
  { intros ->. unfold schema_wf, schema in Hwf. rewrite fmap_app in Hwf.
    apply NoDup_app in Hwf as (_ & Hdisj & _). apply (Hdisj k2).
    - apply list_elem_of_fmap. by exists (k2, d1).
    - left. }
  split; [done|]. split; [|split].
  - intros n Hty. unfold slot_of. by rewrite Hty.
  - cbn zeta.
    rewrite <- (filter_slot_of_type schema k2 d2 _ Hwf Hin2 Hcm).
    pose proof (allowMultiple_wf _ _ _ Hwf Hin2) as Hk2.
    destruct d2 as [c|c|o ms].
    + rewrite (inv_single _ _ _ HI k2 Hk2).
      rewrite (sortedSlots_single _ _ Hwf Hk2). by destruct (last _).
    + by rewrite (inv_multiple _ _ _ HI k2 Hk2).
    + rewrite (inv_single _ _ _ HI k2 Hk2).
      rewrite (sortedSlots_single _ _ Hwf Hk2). by destruct (last _).
  - assert (filter (λ n, slot_of (constructorMap schema) n = Some k1)
                   (flattened kids) = []) as Hnone.
    { apply filter_none. intros n _ Hn.
      pose proof (slot_of_entry schema n k1 d1 Hwf Hin1' Hn) as Hty.
      unfold slot_of in Hn. rewrite Hty, Hid in Hn. cbn in Hn. congruence. }
    pose proof (allowMultiple_wf _ _ _ Hwf Hin1') as Hk1.
    destruct d1 as [c|c|o ms].
    + rewrite (inv_single _ _ _ HI k1 Hk1), Hnone. cbn.
      by apply sortedSlots_single.
    + by rewrite (inv_multiple _ _ _ HI k1 Hk1), Hnone.
    + rewrite (inv_single _ _ _ HI k1 Hk1), Hnone. cbn.
      by apply sortedSlots_single.
Qed.

(** An instance: [{ A: [GenericDiv], B: GenericDiv }] and two nodes. *)
Lemma shared_identity_last_entry_wins_witness :
  slots (mkResult {["A" := JArr []; "B" := Tests.generic 2]} []) !! "B"
  = Some (Tests.generic 2)
  ∧ slots (mkResult {["A" := JArr []; "B" := Tests.generic 2]} []) !! "A"
    = Some (JArr []).
Proof.
  destruct (shared_identity_last_entry_wins
              (JArr [Tests.generic 1; Tests.generic 2])
              [("A", Tuple Tests.GenericDiv)] "B" (Component Tests.GenericDiv) []
              "A" (Tuple Tests.GenericDiv)
              (mkResult {["A" := JArr []; "B" := Tests.generic 2]} []))
    as (_ & _ & HB & HA).
  - unfold schema_wf. by apply (bool_decide_unpack _).
  - constructor.
  - left.
  - done.
  - by vm_compute.
  - split; [|exact HA]. rewrite HB. by vm_compute.
Defined.

(** ** Counting the partition *)

(** C3, counterexample: two nodes of one single-valued slot.  The second
    replaces the first, so one node is in no bucket: 0 + 1 + 0 is not 2. *)
Lemma partition_total_fails :
  ¬ partition_total (JArr [JElem 1 (TyRef 7) JUndefined; JElem 2 (TyRef 7) JUndefined])
      [("Title", Component 7)].
Proof.
  intros H.
  specialize (H (mkResult {["Title" := JElem 2 (TyRef 7) JUndefined]} [])).
  vm_compute in H. by specialize (H eq_refl).
Qed.

(** C3, amended: the leftovers, the sizes of the slots and the nodes that a
    later match replaced in a single-valued slot add up to the walked nodes.
    There is no namespaced bucket.  The buckets are disjoint: a leftover is
    in no slot, and a node is in one slot at most. *)
Theorem partition_count kids schema r :
  schema_wf schema →
  getSlots kids schema = OK r →
  length (children r) + slots_size (slots r) + displaced schema (flattened kids)
  = length (flattened kids)
  ∧ (∀ n key v, n ∈ children r → slots r !! key = Some v → n ∉ splice v)
  ∧ (∀ n key key' v v', slots r !! key = Some v → slots r !! key' = Some v' →
       n ∈ splice v → n ∈ splice v' → key = key').
Proof.
  intros Hwf Hr. pose proof (getSlots_Inv _ _ _ Hr) as HI.
  split; [by apply getSlots_Count|]. split.
  - intros n key v Hn Hv Hnv.
    destruct (Inv_slot_member schema _ r key v n Hwf HI Hv Hnv) as [_ Hk].
    rewrite (inv_children _ _ _ HI) in Hn.
    apply list_elem_of_filter in Hn as [Hnone _]. congruence.
  - intros n key key' v v' Hv Hv' Hnv Hnv'.
    destruct (Inv_slot_member schema _ r key v n Hwf HI Hv Hnv) as [_ Hk].
    destruct (Inv_slot_member schema _ r key' v' n Hwf HI Hv' Hnv') as [_ Hk'].
    congruence.
Qed.

(** An instance: two titles, of which one is dropped. *)
Lemma partition_count_witness :
  length (children (mkResult {["Title" := JElem 2 (TyRef 7) JUndefined]} []))
  + slots_size (slots (mkResult {["Title" := JElem 2 (TyRef 7) JUndefined]} []))
  + displaced [("Title", Component 7)]
      (flattened (JArr [JElem 1 (TyRef 7) JUndefined; JElem 2 (TyRef 7) JUndefined]))
  = length (flattened (JArr [JElem 1 (TyRef 7) JUndefined;
                             JElem 2 (TyRef 7) JUndefined])).
Proof.
  apply (partition_count
           (JArr [JElem 1 (TyRef 7) JUndefined; JElem 2 (TyRef 7) JUndefined])
           [("Title", Component 7)]
           (mkResult {["Title" := JElem 2 (TyRef 7) JUndefined]} [])).
  - unfold schema_wf. by apply (bool_decide_unpack _).
  - by vm_compute.
Defined.

Example displaced_two_titles :
  displaced [("Title", Component 7)]
    [JElem 1 (TyRef 7) JUndefined; JElem 2 (TyRef 7) JUndefined] = 1.
Proof. by vm_compute. Qed.

(** ** Nested fragments *)

(** C5: a fragment found among the children of a top-level fragment is walked
    as one node.  It lands in [children], and the rest of the result is what
    [getSlots] returns when that inner fragment is taken out of the input:
    nothing inside it is matched or added. *)
Theorem inner_fragment_is_leaf kids schema pre id oc post l1 id' ic l2 r :
  normalize kids = pre ++ JElem id ReactFragmentSymbol oc :: post →
  splice (nullish_or oc (JArr [])) = l1 ++ JElem id' ReactFragmentSymbol ic :: l2 →
  getSlots kids schema = OK r →
  ∃ before after,
    children r = before ++ JElem id' ReactFragmentSymbol ic :: after
    ∧ getSlots (JArr (pre ++ JElem id ReactFragmentSymbol (JArr (l1 ++ l2)) :: post))
               schema
      = OK (mkResult (slots r) (before ++ after)).
Proof.
  intros Hkids Houter Hr.
  set (inner := JElem id' ReactFragmentSymbol ic) in *.
  set (cm := constructorMap schema).
  set (F1 := flatten_items pre ++ l1). set (F2 := l2 ++ flatten_items post).
  assert (flattened kids = F1 ++ inner :: F2) as Hflat.
  { unfold flattened. rewrite Hkids.
    rewrite flatten_items_app, flatten_items_cons.
    rewrite flatten_items_fragment, Houter. unfold F1, F2.
    by rewrite <- !app_assoc. }
  assert (flattened (JArr (pre ++ JElem id ReactFragmentSymbol (JArr (l1 ++ l2)) :: post))
          = F1 ++ F2) as Hflat'.
  { unfold flattened. cbn [normalize truthy negb].
    rewrite flatten_items_app, flatten_items_cons.
    rewrite flatten_items_fragment. cbn. unfold F1, F2.
    by rewrite <- !app_assoc. }
  pose proof (getSlots_Inv _ _ _ Hr) as HI.
  pose proof (getSlots_OK_clean _ _ _ Hr) as Hclean.
  rewrite Hflat in HI, Hclean.
  destruct (getSlots_total
              (JArr (pre ++ JElem id ReactFragmentSymbol (JArr (l1 ++ l2)) :: post))
              schema) as (r' & Hr' & HI').
  { rewrite Hflat'. apply Forall_app in Hclean as [H1 [_ H2]%Forall_cons].
    by apply Forall_app. }
  rewrite Hflat' in HI'.
  exists (filter (λ n, slot_of cm n = None) F1),
         (filter (λ n, slot_of cm n = None) F2).
  split.
  - rewrite (inv_children _ _ _ HI), filter_app.
    by rewrite filter_cons_True.
  - rewrite Hr'. f_equal. destruct r' as [sl ch]. f_equal.
    + apply (Inv_slots_ext schema _ _ _ _ HI' HI). intros key.
      rewrite !filter_app. by f_equal.
    + pose proof (inv_children _ _ _ HI') as Hch. cbn in Hch.
      by rewrite Hch, filter_app.
Qed.

(** An instance: the input of the test "does not flatten nested fragments". *)
Lemma inner_fragment_is_leaf_witness :
  ∃ before after,
    children (mkResult {["GenericDiv" := JArr []]}
                       [Tests.Fragment 0 (Tests.generic 2)])
    = before ++ Tests.Fragment 0 (Tests.generic 2) :: after
    ∧ getSlots (JArr ([] ++ JElem 1 ReactFragmentSymbol (JArr ([] ++ [])) :: []))
               Tests.SLOT_SCHEMA
      = OK (mkResult {["GenericDiv" := JArr []]} (before ++ after)).
Proof.
  destruct (inner_fragment_is_leaf
              (JArr [Tests.Fragment 1 (Tests.Fragment 0 (Tests.generic 2))])
              Tests.SLOT_SCHEMA [] 1 (Tests.Fragment 0 (Tests.generic 2)) []
              [] 0 (Tests.generic 2) []
              (mkResult {["GenericDiv" := JArr []]}
                        [Tests.Fragment 0 (Tests.generic 2)]))
    as (before & after & Hch & Hrun).
  - done.
  - done.
  - by vm_compute.
  - exists before, after. split; [exact Hch|exact Hrun].
Defined.

(** * Further properties of the code *)

(** ** When getSlots throws *)

Lemma nullish_Forall_or_Exists (l : list Node) :
  Forall (λ n, nullish n = false) l ∨ Exists (λ n, nullish n = true) l.
Proof.
  induction l as [|n l [IH|IH]].
  - left. constructor.
  - destruct (nullish n) eqn:E.
    + right. by left.
    + left. by constructor.
  - right. by right.
Qed.

(** X1: [getSlots] throws a [TypeError] exactly when a [null] or [undefined]
    is left in the sequence after filtering and flattening, and returns a
    result exactly when none is. *)
Theorem getSlots_throws_iff kids schema :
  (getSlots kids schema = Throw TypeError
   ↔ Exists (λ n, nullish n = true) (flattened kids))
  ∧ ((∃ r, getSlots kids schema = OK r)
     ↔ Forall (λ n, nullish n = false) (flattened kids)).
Proof.
  split; split.
  - intros Hthrow.
    destruct (nullish_Forall_or_Exists (flattened kids)) as [Hall|Hex]; [|done].
    destruct (getSlots_total kids schema Hall) as (r & Hr & _). congruence.
  - apply getSlots_throws.
  - intros [r Hr]. by apply (getSlots_OK_clean kids schema r).
  - intros Hall. destruct (getSlots_total kids schema Hall) as (r & Hr & _).
    by exists r.
Qed.

(** ** Inputs that classify alike *)

Lemma getSlots_flattened_ext kids1 kids2 schema :
  flattened kids1 = flattened kids2 →
  getSlots kids1 schema = getSlots kids2 schema.
Proof. intros H. by rewrite !getSlots_reduce, H. Qed.

Lemma flatten_items_falsy v : truthy v = false → flatten_items [v] = [].
Proof.
  intros Hv. unfold flatten_items.
  rewrite filter_cons_False by (rewrite Hv; intros []). by rewrite filter_nil.
Qed.

Lemma flatten_items_array items : flatten_items [JArr items] = items.
Proof.
  unfold flatten_items. rewrite filter_cons_True by done.
  rewrite filter_nil. cbn. by rewrite app_nil_r.
Qed.

Lemma flatten_items_plain_one e : plain e → flatten_items [e] = [e].
Proof.
  unfold plain. intros [[Ht Hf%negb_prop_elim]%andb_prop_elim Ha]%andb_prop_elim.
  unfold flatten_items. rewrite filter_cons_True by done.
  rewrite filter_nil. cbn. rewrite app_nil_r. unfold unwrap_value.
  rewrite decide_False.
  - by destruct e.
  - intros Heq. apply Hf. by apply bool_decide_pack.
Qed.

Lemma flatten_items_plain l : Forall (λ e, plain e) l → flatten_items l = l.
Proof.
  induction 1 as [|e l He _ IH]; [done|].
  by rewrite flatten_items_cons, (flatten_items_plain_one e He), IH.
Qed.

(** X2: a falsy value at the top level of the children (null, undefined,
    false, 0, the empty string) changes nothing: the call returns, or throws,
    what it does without it. *)
Theorem getSlots_ignores_falsy l1 v l2 schema :
  truthy v = false →
  getSlots (JArr (l1 ++ v :: l2)) schema = getSlots (JArr (l1 ++ l2)) schema.
Proof.
  intros Hv. apply getSlots_flattened_ext. unfold flattened.
  cbn [normalize truthy negb].
  rewrite !flatten_items_app, flatten_items_cons.
  by rewrite (flatten_items_falsy v Hv).
Qed.

(** An instance: a [null] between two elements. *)
Lemma getSlots_ignores_falsy_witness :
  getSlots (JArr ([Tests.generic 1] ++ JNull :: [Tests.div 2])) Tests.SLOT_SCHEMA
  = getSlots (JArr ([Tests.generic 1] ++ [Tests.div 2])) Tests.SLOT_SCHEMA.
Proof. by apply (getSlots_ignores_falsy [Tests.generic 1] JNull [Tests.div 2]). Defined.

(** X3: a top-level fragment whose children are plain nodes (truthy, neither
    fragments nor arrays) classifies as those children written in its place;
    a fragment without children classifies as nothing. *)
Theorem getSlots_fragment_inline pre id oc post schema :
  Forall (λ e, plain e) (splice (nullish_or oc (JArr []))) →
  getSlots (JArr (pre ++ JElem id ReactFragmentSymbol oc :: post)) schema
  = getSlots (JArr (pre ++ splice (nullish_or oc (JArr [])) ++ post)) schema.
Proof.
  intros Hplain. apply getSlots_flattened_ext. unfold flattened.
  cbn [normalize truthy negb].
  rewrite !flatten_items_app, flatten_items_cons, flatten_items_fragment.
  by rewrite (flatten_items_plain _ Hplain).
Qed.

(** An instance: the fragment of the test "flattens fragments". *)
Lemma getSlots_fragment_inline_witness :
  getSlots (JArr ([Tests.div 4]
                  ++ JElem 5 ReactFragmentSymbol
                       (JArr [Tests.generic 6; Tests.generic 7]) :: []))
           Tests.SLOT_SCHEMA
  = getSlots (JArr ([Tests.div 4] ++ [Tests.generic 6; Tests.generic 7] ++ []))
             Tests.SLOT_SCHEMA.
Proof.
  apply (getSlots_fragment_inline [Tests.div 4] 5
           (JArr [Tests.generic 6; Tests.generic 7]) [] Tests.SLOT_SCHEMA).
  by repeat constructor.
Defined.

(** X4: an array nested at the top level of the children is spliced by
    [flatMap] exactly like a fragment holding the same items. *)
Theorem getSlots_nested_array_as_fragment pre items id post schema :
  getSlots (JArr (pre ++ JArr items :: post)) schema
  = getSlots (JArr (pre ++ JElem id ReactFragmentSymbol (JArr items) :: post)) schema.
Proof.
  apply getSlots_flattened_ext. unfold flattened. cbn [normalize truthy negb].
  rewrite !flatten_items_app, !(flatten_items_cons _ post).
  by rewrite flatten_items_array, flatten_items_fragment.
Qed.

(** X5: a lone child that is not an array classifies as the one-element
    array holding it. *)
Theorem getSlots_single_child n schema :
  (∀ l, n ≠ JArr l) →
  getSlots n schema = getSlots (JArr [n]) schema.
Proof.
  intros Hn. apply getSlots_flattened_ext. unfold flattened, normalize.
  cbn [truthy negb]. destruct (truthy n) eqn:Ht; cbn [negb].
  - destruct n; try done. by destruct (Hn items).
  - by rewrite (flatten_items_falsy n Ht).
Qed.

(** An instance: the child of the test "handles single child". *)
Lemma getSlots_single_child_witness :
  getSlots (Tests.generic 1) [] = getSlots (JArr [Tests.generic 1]) [].
Proof. by apply (getSlots_single_child (Tests.generic 1) []). Defined.

(** ** What lands where *)

(** X6: a walked node whose type is not an object (a host element such as
    [<div />], text, a number, a symbol-typed element) is a leftover under
    every schema. *)
Theorem non_component_is_leftover kids schema r n :
  getSlots kids schema = OK r →
  n ∈ flattened kids →
  (∀ c, node_type n ≠ TyRef c) →
  n ∈ children r.
Proof.
  intros Hr Hn Hty. rewrite (inv_children _ _ _ (getSlots_Inv _ _ _ Hr)).
  apply list_elem_of_filter. split; [|done].
  unfold slot_of. destruct (node_type n) as [| |c|]; try done.
  by destruct (Hty c).
Qed.

(** An instance: the [<div />] of the test "handles multiples of slot". *)
Lemma non_component_is_leftover_witness :
  Tests.div 4 ∈ children (mkResult {["GenericDiv" := JArr [Tests.generic 1]]}
                                    [Tests.div 4]).
Proof.
  apply (non_component_is_leftover (JArr [Tests.generic 1; Tests.div 4])
           Tests.SLOT_SCHEMA).
  - by vm_compute.
  - right. left.
  - done.
Defined.

(** X7: with the empty schema nothing is matched: the result has no slots
    and its [children] are the walked sequence, in order. *)
Theorem getSlots_empty_schema kids :
  Forall (λ n, nullish n = false) (flattened kids) →
  getSlots kids [] = OK (mkResult ∅ (flattened kids)).
Proof.
  intros Hfl. destruct (getSlots_total kids [] Hfl) as ([sl ch] & -> & HI).
  f_equal. f_equal.
  - apply map_eq. intros key. rewrite lookup_empty.
    pose proof (inv_single _ _ _ HI key eq_refl) as Hs. cbn [slots] in Hs.
    rewrite Hs, filter_none; [done|].
    intros n _. unfold slot_of. by destruct (node_type n).
  - pose proof (inv_children _ _ _ HI) as Hc. cbn [children] in Hc.
    rewrite Hc. clear.
    induction (flattened kids) as [|n l IH]; [done|].
    rewrite filter_cons_True; [by rewrite IH|].
    unfold slot_of. by destruct (node_type n).
Qed.

(** An instance: the children of the test "handles multiple children". *)
Lemma getSlots_empty_schema_witness :
  getSlots (JArr [Tests.generic 1; Tests.generic 2]) []
  = OK (mkResult ∅ (flattened (JArr [Tests.generic 1; Tests.generic 2]))).
Proof.
  apply (getSlots_empty_schema (JArr [Tests.generic 1; Tests.generic 2])).
  by repeat constructor.
Defined.

(** X8: the keys of the returned [slots] are keys of the schema. *)
Theorem slot_keys_from_schema kids schema r key v :
  getSlots kids schema = OK r →
  slots r !! key = Some v →
  key ∈ schema.*1.
Proof.
  intros Hr Hv. pose proof (getSlots_Inv _ _ _ Hr) as HI.
  assert (∃ d, (key, d) ∈ schema) as [d Hd].
  { destruct (allowMultiple schema key) eqn:Hkey.
    - apply allowMultiple_elem in Hkey as [c Hc]. by exists (Tuple c).
    - rewrite (inv_single _ _ _ HI key Hkey) in Hv.
      destruct (last _) as [m|] eqn:Hlast.
      + assert (Hm : m ∈ filter (λ n, slot_of (constructorMap schema) n = Some key)
                            (flattened kids)).
        { apply last_Some in Hlast as [l' ->]. apply elem_of_app. right. left. }
        apply list_elem_of_filter in Hm as [Hm _]. unfold slot_of in Hm.
        destruct (node_type m) as [| |c|]; try done.
        apply constructorMap_inv in Hm as (d & Hd & _). by exists d.
      + apply sortedSlots_inv in Hv as (_ & c & Hc). by exists (Tuple c). }
  apply list_elem_of_fmap. by exists (key, d).
Qed.

(** An instance: the slot of the test "handles single of slot". *)
Lemma slot_keys_from_schema_witness : "GenericDiv" ∈ Tests.SLOT_SCHEMA.*1.
Proof.
  apply (slot_keys_from_schema (Tests.generic 1) Tests.SLOT_SCHEMA
           (mkResult {["GenericDiv" := JArr [Tests.generic 1]]} [])
           "GenericDiv" (JArr [Tests.generic 1])).
  - by vm_compute.
  - by vm_compute.
Defined.

(** X9: what a slot holds comes from the input and has the type that the
    slot's entry registers.  The slot of a repeatable entry is an array (also
    with a single match); any other slot is one element. *)
Theorem slot_contents_sound kids schema r key d v :
  schema_wf schema →
  (key, d) ∈ schema →
  getSlots kids schema = OK r →
  slots r !! key = Some v →
  match d with
  | Tuple _ => ∃ l, v = JArr l
  | _ => ∃ id c, v = JElem id (TyRef (registered_identity d)) c
  end
  ∧ ∀ n, n ∈ splice v →
      n ∈ flattened kids ∧ node_type n = TyRef (registered_identity d).
Proof.
  intros Hwf Hin Hr Hv. pose proof (getSlots_Inv _ _ _ Hr) as HI.
  assert (Hmem : ∀ n, n ∈ splice v →
            n ∈ flattened kids ∧ node_type n = TyRef (registered_identity d)).
  { intros n Hn.
    destruct (Inv_slot_member schema _ r key v n Hwf HI Hv Hn) as [Hfl Hk].
    split; [done|]. by apply (slot_of_entry schema n key d). }
  split; [|done].
  pose proof (allowMultiple_wf _ _ _ Hwf Hin) as Hkey.
  assert (Hsingle : allowMultiple schema key = false →
            ∃ id c, v = JElem id (TyRef (registered_identity d)) c).
  { intros Hk. rewrite (inv_single _ _ _ HI key Hk) in Hv.
    rewrite (sortedSlots_single _ _ Hwf Hk) in Hv.
    destruct (last _) as [m|] eqn:Hlast; [|done]. injection Hv as <-.
    assert (Hm : m ∈ filter (λ n, slot_of (constructorMap schema) n = Some key)
                        (flattened kids)).
    { apply last_Some in Hlast as [l' ->]. apply elem_of_app. right. left. }
    apply list_elem_of_filter in Hm as [Hm _].
    pose proof (slot_of_entry schema m key d Hwf Hin Hm) as Hty.
    destruct m; try done. cbn in Hty. subst. eauto. }
  destruct d as [c|c|o ms]; [by apply Hsingle| |by apply Hsingle].
  rewrite (inv_multiple _ _ _ HI key Hkey) in Hv. injection Hv as <-. eauto.
Qed.

(** An instance: the test "handles single of slot": one match, in an array. *)
Lemma slot_contents_sound_witness :
  ∃ l, JArr [Tests.generic 1] = JArr l.
Proof.
  apply (slot_contents_sound (Tests.generic 1) Tests.SLOT_SCHEMA
           (mkResult {["GenericDiv" := JArr [Tests.generic 1]]} [])
           "GenericDiv" (Tuple Tests.GenericDiv) (JArr [Tests.generic 1])).
  - unfold schema_wf. by apply (bool_decide_unpack _).
  - left.
  - by vm_compute.
  - by vm_compute.
Defined.

(** X10: at every point of the [reduce] loop the slot of a repeatable entry
    is an array, the matches so far in order.  The branches "first
    encounter" and "encounter second instance" of the callback are never
    taken by [getSlots]. *)
Theorem repeatable_slot_is_array schema seen p key :
  reduce (reducer schema (constructorMap schema)) seen
         (mkResult (sortedSlots schema) []) = OK p →
  allowMultiple schema key = true →
  slots p !! key
  = Some (JArr (filter (λ n, slot_of (constructorMap schema) n = Some key) seen)).
Proof.
  intros Hp Hkey.
  destruct (nullish_Forall_or_Exists seen) as [Hall|Hex].
  - destruct (reduce_invariant (Inv schema) _ (Inv_step schema) seen []
                (mkResult (sortedSlots schema) []) Hall (Inv_init schema))
      as (p' & Hp' & HI).
    assert (p' = p) as -> by congruence.
    by apply (inv_multiple _ _ _ HI).
  - by rewrite (reduce_throws _ _ _ _ Hex) in Hp.
Qed.

(** An instance: the state after the first of two matches. *)
Lemma repeatable_slot_is_array_witness :
  slots (mkResult {["GenericDiv" := JArr [Tests.generic 1]]} []) !! "GenericDiv"
  = Some (JArr (filter (λ n, slot_of (constructorMap Tests.SLOT_SCHEMA) n
                             = Some "GenericDiv") [Tests.generic 1])).
Proof.
  apply (repeatable_slot_is_array Tests.SLOT_SCHEMA [Tests.generic 1]).
  - by vm_compute.
  - by vm_compute.
Defined.

(** X11: classifying the leftovers again changes nothing when they are plain
    nodes: they all come back as [children], and the slots are the
    pre-initialised ones. *)
Theorem leftovers_are_stable kids schema r :
  getSlots kids schema = OK r →
  Forall (λ e, plain e) (children r) →
  getSlots (JArr (children r)) schema
  = OK (mkResult (sortedSlots schema) (children r)).
Proof.
  intros Hr Hplain. pose proof (getSlots_Inv _ _ _ Hr) as HI.
  assert (flattened (JArr (children r)) = children r) as Hflat
    by apply (flatten_items_plain _ Hplain).
  assert (Hun : ∀ n, n ∈ children r → slot_of (constructorMap schema) n = None).
  { intros n. rewrite (inv_children _ _ _ HI).
    by intros [? _]%list_elem_of_filter. }
  destruct (getSlots_total (JArr (children r)) schema) as ([sl ch] & -> & HI').
  { rewrite Hflat. eapply Forall_impl; [exact Hplain|].
    intros e He. apply truthy_not_nullish. unfold plain in He.
    by apply andb_prop_elim in He as [[? _]%andb_prop_elim _]. }
  rewrite Hflat in HI'. f_equal. f_equal.
  - apply map_eq. intros key.
    assert (filter (λ n, slot_of (constructorMap schema) n = Some key) (children r)
            = []) as Hnone.
    { apply filter_none. intros n Hn. rewrite (Hun n Hn). done. }
    destruct (allowMultiple schema key) eqn:Hkey.
    + pose proof (inv_multiple _ _ _ HI' key Hkey) as Hs. cbn [slots] in Hs.
      rewrite Hs, Hnone. by rewrite (sortedSlots_multiple schema key Hkey).
    + pose proof (inv_single _ _ _ HI' key Hkey) as Hs. cbn [slots] in Hs.
      by rewrite Hs, Hnone.
  - pose proof (inv_children _ _ _ HI') as Hc. cbn [children] in Hc.
    rewrite Hc. clear -Hun.
    induction (children r) as [|n l IH]; [done|].
    rewrite filter_cons_True by (apply Hun; left).
    rewrite IH; [done|]. intros m Hm. apply Hun. by right.
Qed.

(** An instance: the leftover [<div />] of "handles multiples of slot". *)
Lemma leftovers_are_stable_witness :
  getSlots (JArr [Tests.div 4]) Tests.SLOT_SCHEMA
  = OK (mkResult (sortedSlots Tests.SLOT_SCHEMA) [Tests.div 4]).
Proof.
  apply (leftovers_are_stable (JArr [Tests.generic 1; Tests.div 4])
           Tests.SLOT_SCHEMA
           (mkResult {["GenericDiv" := JArr [Tests.generic 1]]} [Tests.div 4])).
  - by vm_compute.
  - by repeat constructor.
Defined.

(** X12: a falsy value that is not [null] or [undefined] ([false], [0], the
    empty string) among the children of a top-level fragment is not filtered:
    it comes back in [children]. *)
Theorem falsy_in_fragment_is_leftover pre id l1 v l2 post schema r :
  truthy v = false → nullish v = false →
  getSlots (JArr (pre ++ JElem id ReactFragmentSymbol (JArr (l1 ++ v :: l2)) :: post))
           schema = OK r →
  v ∈ children r.
Proof.
  intros Ht Hn Hr. rewrite (inv_children _ _ _ (getSlots_Inv _ _ _ Hr)).
  apply list_elem_of_filter. split.
  - by destruct v.
  - unfold flattened. cbn [normalize truthy negb].
    rewrite flatten_items_app, flatten_items_cons, flatten_items_fragment.
    cbn [nullish_or nullish splice].
    apply elem_of_app. right. apply elem_of_app. left.
    apply elem_of_app. right. left.
Qed.

(** An instance: [<>{false}<GenericDiv /></>]. *)
Lemma falsy_in_fragment_is_leftover_witness :
  JBool false ∈ children (mkResult {["GenericDiv" := JArr [Tests.generic 1]]}
                                    [JBool false]).
Proof.
  apply (falsy_in_fragment_is_leftover [] 5 [] (JBool false) [Tests.generic 1] []
           Tests.SLOT_SCHEMA).
  - done.
  - done.
  - by vm_compute.
Defined.

(** ** Classifying a concatenation *)

Lemma last_app_cases {A} (l1 l2 : list A) :
  last (l1 ++ l2) = match last l2 with Some x => Some x | None => last l1 end.
Proof.
  destruct l2 as [|x l2 _] using rev_ind.
  - by rewrite app_nil_r.
  - by rewrite app_assoc, !last_snoc.
Qed.

(** X13: classifying [l1 ++ l2] composes the classifications of [l1] and of
    [l2]: the leftovers and the repeatable slots are concatenated, and a
    single-valued slot is the one of [l2] if it has one, else the one of
    [l1]. *)
Theorem getSlots_append l1 l2 schema r1 r2 :
  schema_wf schema →
  getSlots (JArr l1) schema = OK r1 →
  getSlots (JArr l2) schema = OK r2 →
  ∃ r, getSlots (JArr (l1 ++ l2)) schema = OK r
       ∧ children r = children r1 ++ children r2
       ∧ ∀ key,
           if allowMultiple schema key
           then ∃ a1 a2, slots r1 !! key = Some (JArr a1)
                         ∧ slots r2 !! key = Some (JArr a2)
                         ∧ slots r !! key = Some (JArr (a1 ++ a2))
           else slots r !! key = match slots r2 !! key with
                                 | Some v => Some v
                                 | None => slots r1 !! key
                                 end.
Proof.
  intros Hwf Hr1 Hr2.
  pose proof (getSlots_Inv _ _ _ Hr1) as HI1.
  pose proof (getSlots_Inv _ _ _ Hr2) as HI2.
  assert (flattened (JArr (l1 ++ l2))
          = flattened (JArr l1) ++ flattened (JArr l2)) as Hflat
    by apply flatten_items_app.
  destruct (getSlots_total (JArr (l1 ++ l2)) schema) as (r & Hr & HI).
  { rewrite Hflat. apply Forall_app. split.
    - by apply (getSlots_OK_clean _ schema r1).
    - by apply (getSlots_OK_clean _ schema r2). }
  rewrite Hflat in HI. exists r. split; [done|]. split.
  - rewrite (inv_children _ _ _ HI), (inv_children _ _ _ HI1),
      (inv_children _ _ _ HI2). apply filter_app.
  - intros key. destruct (allowMultiple schema key) eqn:Hkey.
    + eexists _, _. split; [by apply (inv_multiple _ _ _ HI1)|].
      split; [by apply (inv_multiple _ _ _ HI2)|].
      rewrite (inv_multiple _ _ _ HI key Hkey). by rewrite filter_app.
    + rewrite (inv_single _ _ _ HI key Hkey), (inv_single _ _ _ HI1 key Hkey),
        (inv_single _ _ _ HI2 key Hkey).
      rewrite (sortedSlots_single _ _ Hwf Hkey), filter_app, last_app_cases.
      by destruct (last (filter _ (flattened (JArr l2)))).
Qed.

(** An instance: a title in each half; the second wins. *)
Lemma getSlots_append_witness :
  ∃ r, getSlots (JArr ([JElem 1 (TyRef 7) JUndefined; Tests.div 2]
                       ++ [JElem 3 (TyRef 7) JUndefined]))
                [("Title", Component 7)] = OK r
       ∧ children r = [Tests.div 2] ++ [].
Proof.
  destruct (getSlots_append [JElem 1 (TyRef 7) JUndefined; Tests.div 2]
              [JElem 3 (TyRef 7) JUndefined] [("Title", Component 7)]
              (mkResult {["Title" := JElem 1 (TyRef 7) JUndefined]} [Tests.div 2])
              (mkResult {["Title" := JElem 3 (TyRef 7) JUndefined]} []))
    as (r & Hr & Hch & _).
  - unfold schema_wf. by apply (bool_decide_unpack _).
  - by vm_compute.
  - by vm_compute.
  - by exists r.
Defined.

(** ** Schemas with distinct identities *)

Lemma constructorMap_distinct schema k d :
  distinct_identities schema → (k, d) ∈ schema →
  constructorMap schema !! registered_identity d = Some k.
Proof.
  unfold distinct_identities.
  intros Hnd (s1 & s2 & ->)%list_elem_of_split.
  apply constructorMap_last. rewrite fmap_app, fmap_cons in Hnd.
  apply NoDup_app in Hnd as (_ & _ & [Hnotin _]%NoDup_cons).
  apply Forall_forall. intros e He Heq. apply Hnotin.
  cbn [snd]. rewrite <- Heq.
  apply (list_elem_of_fmap_2 (λ e, registered_identity e.2) _ _ He).
Qed.

(** X14: when the keys are distinct and no identity is registered twice,
    the slot of every entry is determined by the nodes of its identity: all
    of them in order for a repeatable entry, the last of them otherwise
    (absent when there is none); the leftovers are the nodes whose type no
    entry registers. *)
Theorem getSlots_spec_distinct kids schema r :
  schema_wf schema →
  distinct_identities schema →
  getSlots kids schema = OK r →
  (∀ key d, (key, d) ∈ schema →
     slots r !! key
     = (let matched := filter (λ n, node_type n = TyRef (registered_identity d))
                              (flattened kids) in
        match d with
        | Tuple _ => Some (JArr matched)
        | _ => last matched
        end))
  ∧ (∀ n, n ∈ children r
          ↔ n ∈ flattened kids
            ∧ ∀ key d, (key, d) ∈ schema →
                node_type n ≠ TyRef (registered_identity d)).
Proof.
  intros Hwf Hdist Hr. pose proof (getSlots_Inv _ _ _ Hr) as HI. split.
  - intros key d Hin. cbn zeta.
    pose proof (constructorMap_distinct schema key d Hdist Hin) as Hcm.
    rewrite <- (filter_slot_of_type schema key d _ Hwf Hin Hcm).
    pose proof (allowMultiple_wf _ _ _ Hwf Hin) as Hkey.
    destruct d as [c|c|o ms].
    + rewrite (inv_single _ _ _ HI key Hkey).
      rewrite (sortedSlots_single _ _ Hwf Hkey). by destruct (last _).
    + by rewrite (inv_multiple _ _ _ HI key Hkey).
    + rewrite (inv_single _ _ _ HI key Hkey).
      rewrite (sortedSlots_single _ _ Hwf Hkey). by destruct (last _).
  - intros n. rewrite (inv_children _ _ _ HI), list_elem_of_filter.
    split.
    + intros [Hnone Hn]. split; [done|]. intros key d Hin Hty.
      unfold slot_of in Hnone. rewrite Hty in Hnone. cbn in Hnone.
      by rewrite (constructorMap_distinct schema key d Hdist Hin) in Hnone.
    + intros [Hn Hno]. split; [|done]. unfold slot_of.
      destruct (node_type n) as [| |c|] eqn:Hty; try done. cbn.
      destruct (constructorMap schema !! c) as [k|] eqn:Hc; [|done].
      apply constructorMap_inv in Hc as (d & Hin & <-).
      by destruct (Hno k d Hin).
Qed.

(** An instance: [{ Title: T, Items: [I] }] with one node of each and text. *)
Lemma getSlots_spec_distinct_witness :
  slots (mkResult {["Items" := JArr [JElem 2 (TyRef 8) JUndefined];
                    "Title" := JElem 1 (TyRef 7) JUndefined]} [JStr "text"])
    !! "Items"
  = Some (JArr (filter (λ n, node_type n = TyRef 8)
                  (flattened (JArr [JElem 1 (TyRef 7) JUndefined; JStr "text";
                                    JElem 2 (TyRef 8) JUndefined])))).
Proof.
  destruct (getSlots_spec_distinct
              (JArr [JElem 1 (TyRef 7) JUndefined; JStr "text";
                     JElem 2 (TyRef 8) JUndefined])
              [("Title", Component 7); ("Items", Tuple 8)]
              (mkResult {["Items" := JArr [JElem 2 (TyRef 8) JUndefined];
                          "Title" := JElem 1 (TyRef 7) JUndefined]} [JStr "text"]))
    as [Hs _].
  - unfold schema_wf. by apply (bool_decide_unpack _).
  - unfold distinct_identities. by apply (bool_decide_unpack _).
  - by vm_compute.
  - apply (Hs "Items" (Tuple 8)). right. left.
Defined.

Lemma constructorMap_registered schema k d :
  (k, d) ∈ schema → is_Some (constructorMap schema !! registered_identity d).
Proof.
  induction schema as [|[k' d'] schema IH] using rev_ind.
  - by intros ?%elem_of_nil.
  - rewrite constructorMap_snoc, lookup_insert.
    intros [Hin|[= -> ->]%list_elem_of_singleton]%elem_of_app.
    + case_decide; [by eexists|by apply IH].
    + rewrite decide_True by done. by eexists.
Qed.

(** X15: a walked node whose type is the identity registered by some entry
    of the schema is never a leftover. *)
Theorem registered_never_leftover kids schema r key d n :
  (key, d) ∈ schema →
  getSlots kids schema = OK r →
  node_type n = TyRef (registered_identity d) →
  n ∉ children r.
Proof.
  intros Hin Hr Hty. rewrite (inv_children _ _ _ (getSlots_Inv _ _ _ Hr)).
  intros [Hnone _]%list_elem_of_filter.
  unfold slot_of in Hnone. rewrite Hty in Hnone. cbn in Hnone.
  destruct (constructorMap_registered schema key d Hin) as [k Hk]. congruence.
Qed.

(** An instance: the matched element of "handles single of slot". *)
Lemma registered_never_leftover_witness :
  Tests.generic 1 ∉ children (mkResult {["GenericDiv" := JArr [Tests.generic 1]]} []).
Proof.
  apply (registered_never_leftover (Tests.generic 1) Tests.SLOT_SCHEMA _
           "GenericDiv" (Tuple Tests.GenericDiv)).
  - left.
  - by vm_compute.
  - done.
Defined.

(** ** The order of the schema's entries *)

Lemma schema_wf_perm schema schema' :
  schema ≡ₚ schema' → schema_wf schema → schema_wf schema'.
Proof. unfold schema_wf. by intros ->. Qed.

Lemma distinct_identities_perm schema schema' :
  schema ≡ₚ schema' → distinct_identities schema → distinct_identities schema'.
Proof. unfold distinct_identities. by intros ->. Qed.

Lemma allowMultiple_perm schema schema' key :
  schema_wf schema → schema ≡ₚ schema' →
  allowMultiple schema key = allowMultiple schema' key.
Proof.
  intros Hwf Hperm. pose proof (schema_wf_perm _ _ Hperm Hwf) as Hwf'.
  unfold allowMultiple.
  destruct (schema_get schema key) as [d|] eqn:E.
  - apply schema_get_elem in E. rewrite Hperm in E.
    by rewrite (schema_get_wf _ _ _ Hwf' E).
  - destruct (schema_get schema' key) as [d'|] eqn:E'; [|done].
    apply schema_get_elem in E'. rewrite <- Hperm in E'.
    by rewrite (schema_get_wf _ _ _ Hwf E') in E.
Qed.

Lemma constructorMap_perm schema schema' :
  distinct_identities schema → schema ≡ₚ schema' →
  constructorMap schema = constructorMap schema'.
Proof.
  intros Hd Hperm. pose proof (distinct_identities_perm _ _ Hperm Hd) as Hd'.
  apply map_eq. intros c.
  destruct (constructorMap schema !! c) as [k|] eqn:E.
  - apply constructorMap_inv in E as (d & Hin & <-). rewrite Hperm in Hin.
    by rewrite (constructorMap_distinct _ _ _ Hd' Hin).
  - destruct (constructorMap schema' !! c) as [k'|] eqn:E'; [|done].
    apply constructorMap_inv in E' as (d & Hin & <-). rewrite <- Hperm in Hin.
    by rewrite (constructorMap_distinct _ _ _ Hd Hin) in E.
Qed.

Lemma sortedSlots_perm schema schema' :
  schema ≡ₚ schema' → sortedSlots schema = sortedSlots schema'.
Proof.
  intros Hperm. apply map_eq. intros k.
  destruct (sortedSlots schema !! k) as [v|] eqn:E.
  - apply sortedSlots_inv in E as (-> & c & Hc). rewrite Hperm in Hc.
    by rewrite (sortedSlots_tuple _ _ _ Hc).
  - destruct (sortedSlots schema' !! k) as [v'|] eqn:E'; [|done].
    apply sortedSlots_inv in E' as (-> & c & Hc). rewrite <- Hperm in Hc.
    by rewrite (sortedSlots_tuple _ _ _ Hc) in E.
Qed.

(** X16: when the keys are distinct and no identity is registered twice,
    the order of the schema's entries does not matter: two schemas with the
    same entries give the same outcome on every input. *)
Theorem getSlots_schema_order kids schema schema' :
  schema_wf schema →
  distinct_identities schema →
  schema ≡ₚ schema' →
  getSlots kids schema = getSlots kids schema'.
Proof.
  intros Hwf Hd Hperm. rewrite !getSlots_reduce.
  rewrite <- (constructorMap_perm _ _ Hd Hperm), <- (sortedSlots_perm _ _ Hperm).
  apply reduce_ext. intros p cv. unfold reducer.
  destruct (type_of cv) as [ty|e]; cbn; [|done].
  destruct (lookup_type _ ty) as [k|]; [|done].
  by rewrite (allowMultiple_perm _ _ k Hwf Hperm).
Qed.

(** An instance: [{ Title, Items }] and [{ Items, Title }]. *)
Lemma getSlots_schema_order_witness :
  getSlots (JArr [JElem 1 (TyRef 7) JUndefined; JElem 2 (TyRef 8) JUndefined])
           [("Title", Component 7); ("Items", Tuple 8)]
  = getSlots (JArr [JElem 1 (TyRef 7) JUndefined; JElem 2 (TyRef 8) JUndefined])
             [("Items", Tuple 8); ("Title", Component 7)].
Proof.
  apply getSlots_schema_order.
  - unfold schema_wf. by apply (bool_decide_unpack _).
  - unfold distinct_identities. by apply (bool_decide_unpack _).
  - apply Permutation_swap.
Defined.

(** ** resolveChildSlot, withSlots and SlottedComponent *)

(** X17: [resolveChildSlot] never returns a tuple; it returns a mapping only
    when given that mapping with a number of keys other than one; resolving
    twice is resolving once. *)
Theorem resolveChildSlot_result d :
  (∀ c, resolveChildSlot d ≠ Tuple c)
  ∧ (∀ o members, resolveChildSlot d = Mapping o members →
       d = Mapping o members ∧ length members ≠ 1)
  ∧ resolveChildSlot (resolveChildSlot d) = resolveChildSlot d.
Proof.
  split; [|split].
  - intros c'. by destruct d as [c|c|o [|[l c] [|m ms]]].
  - intros o' members'.
    destruct d as [c|c|o [|[l c] [|m ms]]]; cbn; try done.
    + by intros [= <- <-].
    + by intros [= <- <-].
  - by destruct d as [c|c|o [|[l c] [|m ms]]].
Qed.

Lemma not_assignable_true key :
  not_assignable key = true
  ↔ (key = "name" ∨ key = "length") ∨ (key = "arguments" ∨ key = "caller").
Proof.
  unfold not_assignable. rewrite bool_decide_eq_true.
  rewrite !elem_of_cons, elem_of_nil. tauto.
Qed.

Lemma assign_property_plain t k v :
  proto t = None → k ≠ "__proto__" →
  assign_property t (k, v)
  = if not_assignable k then Throw TypeError
    else OK (mkFunction (<[k := SDef v]> (own_props t)) None).
Proof.
  intros Hp Hk. unfold assign_property. cbn [fst snd]. rewrite Hp.
  destruct (not_assignable k) eqn:Hna.
  - apply not_assignable_true in Hna as [Hna|Hna].
    + by rewrite decide_True.
    + destruct (decide (k = "name" ∨ k = "length")); [done|].
      rewrite decide_False by done. by rewrite decide_True.
  - assert (¬ ((k = "name" ∨ k = "length")
               ∨ (k = "arguments" ∨ k = "caller"))) as Hno.
    { rewrite <- not_assignable_true. by rewrite Hna. }
    rewrite decide_False by tauto. rewrite decide_False by done.
    by rewrite decide_False by tauto.
Qed.

Lemma Object_assign_returns src t :
  proto t = None → "__proto__" ∉ src.*1 →
  (∃ t', Object_assign t src = OK t')
  ↔ Forall (λ k, not_assignable k = false) src.*1.
Proof.
  revert t. induction src as [|[k v] src IH]; intros t Hp; cbn.
  - intros _. split; [constructor|]. by exists t.
  - intros [Hk Hsrc]%not_elem_of_cons.
    rewrite (assign_property_plain t k v Hp) by done.
    rewrite Forall_cons. destruct (not_assignable k); cbn.
    + split; [by intros [? ?]|by intros [? _]].
    + rewrite (IH (mkFunction (<[k := SDef v]> (own_props t)) None) eq_refl Hsrc).
      split; [by intros ?|by intros [_ ?]].
Qed.

(** X18: for a schema without an own key [__proto__], [withSlots] (and so
    [SlottedComponent]) returns a component exactly when no own key of the
    schema is [name], [length], [arguments] or [caller]; with such a key
    [Object.assign] onto the function [SlotProvider] throws a [TypeError]. *)
Theorem withSlots_returns_iff own schema :
  "__proto__" ∉ (Object_entries own schema).*1 →
  ((∃ w, SlottedComponent own schema = OK w)
   ↔ Forall (λ k, not_assignable k = false) (Object_entries own schema).*1)
  ∧ (SlottedComponent own schema = Throw TypeError
     ↔ Exists (λ k, not_assignable k = true) (Object_entries own schema).*1).
Proof.
  intros Hproto. rewrite <- withSlots_slots_keys in *.
  pose proof (Object_assign_returns (withSlots_slots own schema)
                (function_object "SlotProvider" 1) eq_refl Hproto) as Hiff.
  assert (Hw : (∃ w, SlottedComponent own schema = OK w)
               ↔ ∃ t', Object_assign (function_object "SlotProvider" 1)
                         (withSlots_slots own schema) = OK t').
  { unfold SlottedComponent, withSlots.
    destruct (Object_assign _ _) as [f|e]; cbn.
    - split; intros _; by eexists.
    - split; by intros [? ?]. }
  split; [by rewrite Hw|].
  split.
  - intros Hthrow.
    destruct (decide (Exists (λ k, not_assignable k = true)
                        (withSlots_slots own schema).*1)) as [|Hno]; [done|].
    assert (∃ w, SlottedComponent own schema = OK w) as [w Hok].
    { apply Hw, Hiff. apply Forall_forall. intros k Hk.
      destruct (not_assignable k) eqn:E; [|done].
      destruct Hno. apply Exists_exists. by exists k. }
    congruence.
  - intros (k & Hk & Hna)%Exists_exists.
    destruct (SlottedComponent own schema) as [w|[]] eqn:E; [|done].
    assert (Forall (λ k, not_assignable k = false)
              (withSlots_slots own schema).*1) as Hall
      by (apply Hiff, Hw; by exists w).
    rewrite Forall_forall in Hall. specialize (Hall k Hk). congruence.
Qed.

(** An instance: a slot called [name] cannot be attached. *)
Lemma withSlots_returns_iff_witness :
  SlottedComponent (λ _, true) [("name", Component 1)] = Throw TypeError.
Proof.
  destruct (withSlots_returns_iff (λ _, true) [("name", Component 1)])
    as [_ [_ Hthrow]].
  - by apply (bool_decide_unpack _).
  - apply Hthrow. by left.
Defined.


